(** * TasksQueue: the deferred-task scheduler of cognitum

    A shallow embedding of [src/lib/classes/tasks/TasksQueue.js].

    The class keeps three private fields that matter here: the sparse array
    [#tasksList], the handle [#currentTimer] of the last timer it created and
    the field [#currentTimerTimestamp], which the class reads but never
    writes.  The host event loop is modelled by the list of timers that are
    still pending, the wall clock by the value each [new Date().getTime()]
    returns, passed in as an argument.

    Every operation is taken to run to its end before the next one starts
    (one logical timeline): the interleavings that [await] permits are not
    modelled. *)

From Stdlib Require Import ZArith List String Bool Lia.
Import ListNotations.
Open Scope Z_scope.

(** ** Tasks *)

(** What a task's [id] field may hold.  [#runTasks] tests it with
    [if (task.id)], so its JavaScript truthiness is what counts. *)
Inductive JsId : Type :=
| IdUndefined
| IdNull
| IdNum (n : Z)
| IdStr (s : string).

Definition truthy (i : JsId) : bool :=
  match i with
  | IdUndefined | IdNull => false
  | IdNum n => negb (n =? 0)
  | IdStr s => match s with EmptyString => false | String _ _ => true end
  end.

(** An instance of [BaseTask]: the fields the queue reads ([id], [time]) and
    the variant payload, which the queue never looks at. *)
Record BaseTask : Type := mkTask {
  id : JsId;
  time : Z;
  payload : string
}.

(** What a caller may hand to [pushTask]. *)
Inductive JsValue : Type :=
| VTask (t : BaseTask)
| VNumber (n : Z)
| VUndefined.

(** A row of [TaskModel], as [findAll] returns it. *)
Record TaskModel : Type := mkRecord {
  rec_id : JsId;
  rec_time : Z;
  rec_type : string;
  rec_payload : string
}.

(** The three awaited calls of [#runTasks], in source order. *)
Inductive Phase : Type := BeforeRun | Run | AfterRun.

Definition lifecycle : list Phase := [BeforeRun; Run; AfterRun].

Inductive Exception : Type :=
| TaskLifecycleError (p : Phase) (t : BaseTask)
| UnknownVariantError (r : TaskModel).

(** How an [async] method ends: it returns, or its promise rejects. *)
Inductive Completion : Type :=
| Normal
| Thrown (e : Exception).

(** What the queue does to its collaborators, in order: a lifecycle call on
    a task, or the batched [TaskModel.update] with the ids it closes. *)
Inductive Event : Type :=
| Called (p : Phase) (t : BaseTask)
| StoreUpdate (ids : list JsId).

(** ** State *)

(** A pending [setTimeout]: the handle it returned, the clock when it was
    created and the delay it was given.  The callback is always the same
    ([#runTasks] then [#updateTimer()]), so it is not stored. *)
Record Timer : Type := mkTimer {
  handle : nat;
  armedAt : Z;
  delay : Z
}.

Definition fireTime (tm : Timer) : Z := armedAt tm + delay tm.

(** The private fields.  A slot of [tasksList] is [None] once
    [delete this.#tasksList[i]] has emptied it.  [listeners] counts the
    handlers subscribed to the [taskAdded] event. *)
Record TasksQueue : Type := mkQueue {
  tasksList : list (option BaseTask);
  currentTimer : option nat;
  currentTimerTimestamp : option Z;
  listeners : nat
}.

(** The queue with the event loop around it. *)
Record World : Type := mkWorld {
  queue : TasksQueue;
  timers : list Timer;
  nextHandle : nat
}.

Definition newQueue : TasksQueue :=
  {| tasksList := []; currentTimer := None;
     currentTimerTimestamp := None; listeners := 0 |}.

Definition newWorld : World :=
  {| queue := newQueue; timers := []; nextHandle := 0 |}.

Definition setTasks (q : TasksQueue) (l : list (option BaseTask)) : TasksQueue :=
  {| tasksList := l; currentTimer := currentTimer q;
     currentTimerTimestamp := currentTimerTimestamp q;
     listeners := listeners q |}.

Definition setQueue (w : World) (q : TasksQueue) : World :=
  {| queue := q; timers := timers w; nextHandle := nextHandle w |}.

(** The tasks the array really holds (what [forEach] visits). *)
Fixpoint liveTasks (l : list (option BaseTask)) : list BaseTask :=
  match l with
  | [] => []
  | None :: rest => liveTasks rest
  | Some t :: rest => t :: liveTasks rest
  end.

Definition isTask (s : option BaseTask) : bool :=
  match s with Some _ => true | None => false end.

(** ** #updateTimer *)

Definition MAX_TIMER_TIME : Z := 864000000.

(** [clearTimeout(this.#currentTimer)]: a handle that is [undefined] or no
    longer pending clears nothing. *)
Definition clearTimeout (h : option nat) (ts : list Timer) : list Timer :=
  match h with
  | None => ts
  | Some n => filter (fun tm => negb (Nat.eqb (handle tm) n)) ts
  end.

(** One turn of the [forEach] callback of lines 63-69. *)
Definition scanStep (acc : Z) (s : option BaseTask) : Z :=
  match s with
  | None => acc
  | Some t => if acc <? 0 then time t else Z.min acc (time t)
  end.

Definition scanTasks (acc : Z) (l : list (option BaseTask)) : Z :=
  fold_left scanStep l acc.

(** [nextTimerTime] as it stands at line 71. *)
Definition nextTimerTime (forced : option BaseTask)
    (l : list (option BaseTask)) : Z :=
  let n := match forced with Some t => time t | None => -1 end in
  if n <? 0 then scanTasks n l else n.

(** Lines 73-75: the delay handed to [setTimeout]. *)
Definition timerDelay (now candidate : Z) : Z :=
  let d := Z.max now candidate - now in
  if d >=? MAX_TIMER_TIME then MAX_TIMER_TIME else d.

Definition updateTimer (now : Z) (forced : option BaseTask) (w : World) : World :=
  let q := queue w in
  let ts := clearTimeout (currentTimer q) (timers w) in
  let n := nextTimerTime forced (tasksList q) in
  if n <? 0 then
    {| queue := q; timers := ts; nextHandle := nextHandle w |}
  else
    {| queue := {| tasksList := tasksList q;
                   currentTimer := Some (nextHandle w);
                   currentTimerTimestamp := currentTimerTimestamp q;
                   listeners := listeners q |};
       timers := ts ++ [ {| handle := nextHandle w; armedAt := now;
                            delay := timerDelay now n |} ];
       nextHandle := S (nextHandle w) |}.

(** ** #handleNewTask and pushTask *)

(** The test of line 50.  With the field [undefined] the comparison is
    false and the negation true; with a number both are evaluated. *)
Definition needsRearm (t : BaseTask) (stamp : option Z) : bool :=
  match stamp with
  | None => true
  | Some s => (time t <? s) || (s =? 0)
  end.

(** [task.initialize()] is awaited first; it does not touch the queue. *)
Definition handleNewTask (now : Z) (t : BaseTask) (w : World) : World :=
  let q := queue w in
  let w1 := setQueue w (setTasks q (tasksList q ++ [Some t])) in
  if needsRearm t (currentTimerTimestamp q) then updateTimer now (Some t) w1
  else w1.

(** [emit] calls every subscribed handler in turn. *)
Definition pushTask (now : Z) (v : JsValue) (w : World) : World :=
  match v with
  | VTask t => Nat.iter (listeners (queue w)) (handleNewTask now t) w
  | _ => w
  end.

(** ** #runTasks, #loadTasksFromDatabase, initialize and the timer callback *)

Section Collaborators.

(** [BaseTask] and [TaskLoader] are not part of the file.  Whether a phase
    of a task rejects, and what the loader makes of a row, are parameters. *)
Variable raises : Phase -> BaseTask -> bool.
Variable resolveTask : TaskModel -> Exception + BaseTask.

(** The awaited phase calls of lines 99-101: the calls made, and the phase
    that rejected, if one did. *)
Fixpoint runPhases (t : BaseTask) (ps : list Phase) : list Event * option Phase :=
  match ps with
  | [] => ([], None)
  | p :: ps' =>
      if raises p t then ([Called p t], Some p)
      else let '(ev, r) := runPhases t ps' in (Called p t :: ev, r)
  end.

Record LoopResult : Type := mkLoop {
  slots : list (option BaseTask);
  completedTasks : list JsId;
  calls : list Event;
  outcome : Completion
}.

(** The [for] loop of lines 93-107 over the slots still to visit. *)
Fixpoint scanDue (now : Z) (l : list (option BaseTask)) : LoopResult :=
  match l with
  | [] => mkLoop [] [] [] Normal
  | None :: rest =>
      let r := scanDue now rest in
      mkLoop (None :: slots r) (completedTasks r) (calls r) (outcome r)
  | Some t :: rest =>
      if time t <? now then
        match runPhases t lifecycle with
        | (ev, Some p) =>
            mkLoop (Some t :: rest) [] ev (Thrown (TaskLifecycleError p t))
        | (ev, None) =>
            let r := scanDue now rest in
            mkLoop (None :: slots r)
                   ((if truthy (id t) then [id t] else []) ++ completedTasks r)
                   (ev ++ calls r) (outcome r)
        end
      else
        let r := scanDue now rest in
        mkLoop (Some t :: slots r) (completedTasks r) (calls r) (outcome r)
  end.

(** [#runTasks] with the clock reading [now]: the completion, the queue
    afterwards and the trace.  On a rejection the array keeps the holes the
    loop has made, since line 109 is not reached.  [TaskModel.update] is
    taken to resolve. *)
Definition runTasks (now : Z) (q : TasksQueue)
    : Completion * TasksQueue * list Event :=
  let r := scanDue now (tasksList q) in
  match outcome r with
  | Thrown e => (Thrown e, setTasks q (slots r), calls r)
  | Normal =>
      let q' := setTasks q (filter isTask (slots r)) in
      match completedTasks r with
      | [] => (Normal, q', calls r)
      | ids => (Normal, q', calls r ++ [StoreUpdate ids])
      end
  end.

(** The [forEach] of lines 135-139 over the rows [findAll] returned: a
    throw inside the callback ends the iteration. *)
Fixpoint loadRecords (rows : list TaskModel) (l : list (option BaseTask))
    : Completion * list (option BaseTask) :=
  match rows with
  | [] => (Normal, l)
  | r :: rows' =>
      match resolveTask r with
      | inl e => (Thrown e, l)
      | inr t => loadRecords rows' (l ++ [Some t])
      end
  end.

Definition loadTasksFromDatabase (rows : list TaskModel) (q : TasksQueue)
    : Completion * TasksQueue :=
  let '(c, l) := loadRecords rows (tasksList q) in (c, setTasks q l).

Definition subscribeEvents (q : TasksQueue) : TasksQueue :=
  {| tasksList := tasksList q; currentTimer := currentTimer q;
     currentTimerTimestamp := currentTimerTimestamp q;
     listeners := S (listeners q) |}.

Definition initialize (now : Z) (rows : list TaskModel) (w : World)
    : Completion * World :=
  match loadTasksFromDatabase rows (subscribeEvents (queue w)) with
  | (Normal, q) => (Normal, updateTimer now None (setQueue w q))
  | (Thrown e, q) => (Thrown e, setQueue w q)
  end.

(** The callback of lines 76-79 run for the pending timer [h]: the clock
    reads [now1] inside [#runTasks] and [now2] inside [#updateTimer].  A
    handle that is not pending does not fire. *)
Definition fire (h : nat) (now1 now2 : Z) (w : World)
    : Completion * World * list Event :=
  if existsb (fun tm => Nat.eqb (handle tm) h) (timers w) then
    let w1 := {| queue := queue w;
                 timers := filter (fun tm => negb (Nat.eqb (handle tm) h)) (timers w);
                 nextHandle := nextHandle w |} in
    match runTasks now1 (queue w1) with
    | (Normal, q, ev) => (Normal, updateTimer now2 None (setQueue w1 q), ev)
    | (Thrown e, q, ev) => (Thrown e, setQueue w1 q, ev)
    end
  else (Normal, w, []).

(** The worlds the public interface and the event loop can produce. *)
Inductive reachable : World -> Prop :=
| reach_new : reachable newWorld
| reach_initialize now rows w :
    reachable w -> reachable (snd (initialize now rows w))
| reach_push now v w :
    reachable w -> reachable (pushTask now v w)
| reach_fire h now1 now2 w :
    reachable w -> reachable (snd (fst (fire h now1 now2 w))).

End Collaborators.

(** ** The vocabulary of the specification *)

(** The minimum [dueAt] over a working set, when there is one. *)
Fixpoint minDueAt (l : list BaseTask) : option Z :=
  match l with
  | [] => None
  | t :: rest =>
      match minDueAt rest with
      | None => Some (time t)
      | Some m => Some (Z.min (time t) m)
      end
  end.

Definition workingSet (w : World) : list BaseTask :=
  liveTasks (tasksList (queue w)).

(** A task is due at [now] when its time is strictly below it (line 98). *)
Definition due (now : Z) (t : BaseTask) : bool := time t <? now.

(** What the loop leaves in a slot when it completes. *)
Definition vacate (now : Z) (s : option BaseTask) : option BaseTask :=
  match s with
  | Some t => if due now t then None else Some t
  | None => None
  end.

(** The due tasks of an array, in iteration order. *)
Definition dueTasks (now : Z) (l : list (option BaseTask)) : list BaseTask :=
  filter (due now) (liveTasks l).

Definition phaseCalls (t : BaseTask) : list Event :=
  map (fun p => Called p t) lifecycle.

(** The tasks a wake-up ran, read off its trace. *)
Fixpoint ranTasks (ev : list Event) : list BaseTask :=
  match ev with
  | [] => []
  | Called Run t :: rest => t :: ranTasks rest
  | _ :: rest => ranTasks rest
  end.

(** The batched writes a wake-up issued, read off its trace. *)
Fixpoint storeWrites (ev : list Event) : list (list JsId) :=
  match ev with
  | [] => []
  | StoreUpdate ids :: rest => ids :: storeWrites rest
  | _ :: rest => storeWrites rest
  end.

Definition persistedIds (ts : list BaseTask) : list JsId :=
  filter truthy (map id ts).

(** The one-timer invariant: whatever is pending is the timer the queue
    holds the handle of. *)
Definition timersOwned (w : World) : Prop :=
  timers w = [] \/
  exists tm, timers w = [tm] /\ currentTimer (queue w) = Some (handle tm).

(** Modelled from the spec: [TaskLoader.resolveTask], which is not part of
    the file.  Section 4.2: a row whose discriminator names a known variant
    becomes a task carrying the row's id, due time and payload; any other
    discriminator fails with [UnknownVariantError]. *)
Definition resolveTaskSpec (known : list string) (r : TaskModel)
    : Exception + BaseTask :=
  if existsb (String.eqb (rec_type r)) known
  then inr {| id := rec_id r; time := rec_time r; payload := rec_payload r |}
  else inl (UnknownVariantError r).

(** ** The three claims the code does not meet, as the specification words
    them *)

(** Failure isolation (sections 4.1 and 7): when a phase of one due task
    raises, the other due tasks still go through their three phases, the
    failing task still leaves the working set and its id is still written. *)
Definition failure_isolation_spec : Prop :=
  forall (raises : Phase -> BaseTask -> bool) now q t p,
    In (Some t) (tasksList q) -> time t < now -> raises p t = true ->
    let '(_, q', ev) := runTasks raises now q in
    (forall u, In (Some u) (tasksList q) -> time u < now ->
               (forall ph, raises ph u = false) ->
               forall ph, In (Called ph u) ev) /\
    ~ In (Some t) (tasksList q') /\
    (truthy (id t) = true ->
     exists ids, In (StoreUpdate ids) ev /\ In (id t) ids).

(** Sections 4.2 and 8: a row the loader rejects is skipped, the rows around
    it enter the working set and [initialize] returns. *)
Definition unknown_variant_skipped_spec : Prop :=
  forall (resolveTask : TaskModel -> Exception + BaseTask)
         now rows1 bad rows2 ts1 ts2 e w,
    resolveTask bad = inl e ->
    map resolveTask rows1 = map inr ts1 ->
    map resolveTask rows2 = map inr ts2 ->
    let '(c, w') := initialize resolveTask now (rows1 ++ bad :: rows2) w in
    c = Normal /\ workingSet w' = workingSet w ++ ts1 ++ ts2.

(** A scanning rearm goes idle whenever the minimum task time is negative. *)
Definition negative_minimum_idles_spec : Prop :=
  forall raises resolveTask now w m,
    reachable raises resolveTask w ->
    minDueAt (workingSet w) = Some m -> m < 0 ->
    timers (updateTimer now None w) = [].

(** After an enqueue the pending timer aims at the minimum due time (stated
    where the clamp and the floor at [now] play no part). *)
Definition timer_tracks_minimum_spec : Prop :=
  forall raises resolveTask now t w m,
    reachable raises resolveTask w -> listeners (queue w) = 1%nat ->
    0 <= time t ->
    minDueAt (workingSet (pushTask now (VTask t) w)) = Some m ->
    now <= m -> m - now < MAX_TIMER_TIME ->
    exists tm, timers (pushTask now (VTask t) w) = [tm] /\ fireTime tm = m.

(** An enqueue due later than the pending timer's target leaves it alone. *)
Definition later_enqueue_keeps_timer_spec : Prop :=
  forall raises resolveTask now t w tm,
    reachable raises resolveTask w -> listeners (queue w) = 1%nat ->
    timers w = [tm] -> fireTime tm < time t ->
    timers (pushTask now (VTask t) w) = [tm].

(** ** Sample data *)

Definition neverRaises : Phase -> BaseTask -> bool := fun _ _ => false.

Definition knownVariants : list string := ["reminder"%string].

Definition loader : TaskModel -> Exception + BaseTask :=
  resolveTaskSpec knownVariants.

Definition taskA : BaseTask := mkTask (IdNum 1) 2000 "a".
Definition taskB : BaseTask := mkTask (IdNum 2) 5000 "b".
Definition taskC : BaseTask := mkTask (IdNum 3) 1000 "c".
Definition transientTask : BaseTask := mkTask IdUndefined 1500 "t".
Definition zeroIdTask : BaseTask := mkTask (IdNum 0) 1200 "z".
Definition farTask : BaseTask := mkTask (IdNum 9) 5000000000 "far".
Definition earlyTask : BaseTask := mkTask (IdNum 4) (-3) "neg".
Definition lateTask : BaseTask := mkTask (IdNum 5) 7 "pos".

(** A collaborator whose [run] rejects for [taskC] and for no other task. *)
Definition raisesOnC (p : Phase) (t : BaseTask) : bool :=
  match p, id t with
  | Run, IdNum 3 => true
  | _, _ => false
  end.

Definition rowA : TaskModel := mkRecord (IdNum 1) 2000 "reminder" "a".
Definition rowBad : TaskModel := mkRecord (IdNum 7) 3000 "unknown_type" "x".
Definition rowB : TaskModel := mkRecord (IdNum 2) 5000 "reminder" "b".

Definition rowEarly : TaskModel := mkRecord (IdNum 4) (-3) "reminder" "neg".
Definition rowLate : TaskModel := mkRecord (IdNum 5) 7 "reminder" "pos".

(** A queue that [initialize] has set up once over an empty store. *)
Definition readyWorld : World :=
  snd (initialize loader 0 [] newWorld).

(** Two enqueues at clock 1000: first the task due at 2000, then the one
    due at 5000. *)
Definition afterFirstPush : World := pushTask 1000 (VTask taskA) readyWorld.
Definition afterSecondPush : World := pushTask 1000 (VTask taskB) afterFirstPush.

(** A queue started over a store holding a row due at -3 and one due at 7. *)
Definition mixedSignWorld : World :=
  snd (initialize loader 0 [rowEarly; rowLate] newWorld).

(** A queue started over two rows, with a far-future task enqueued at
    clock 500. *)
Definition busyWorld : World :=
  pushTask 500 (VTask farTask)
    (snd (initialize loader 0 [rowA; rowB] newWorld)).

(** The phases [#runTasks] has called on a task when phase [p] rejects. *)
Definition phasesUpTo (p : Phase) : list Phase :=
  match p with
  | BeforeRun => [BeforeRun]
  | Run => [BeforeRun; Run]
  | AfterRun => [BeforeRun; Run; AfterRun]
  end.

(** Every pending timer has a delay between zero and the horizon. *)
Definition delaysBounded (w : World) : Prop :=
  Forall (fun tm => 0 <= delay tm <= MAX_TIMER_TIME) (timers w).

(** A queue whose array still has the hole an aborted wake-up left. *)
Definition holedQueue : TasksQueue :=
  mkQueue [None; Some taskC; Some taskB; Some transientTask] None None 1.

(** * Proofs *)

(** ** The scan of #updateTimer *)

Lemma scanTasks_no_live acc l :
  liveTasks l = [] -> scanTasks acc l = acc.
Proof.
  revert acc; induction l as [|[t|] l IH]; intros acc H; simpl in *;
    try discriminate; auto.
Qed.

Lemma scanStep_sign acc t :
  (scanStep acc (Some t) <? 0) = (time t <? 0) || (negb (acc <? 0) && (acc <? 0)).
Proof.
  unfold scanStep.
  destruct (acc <? 0) eqn:Ha; simpl.
  - now rewrite orb_false_r.
  - rewrite orb_false_r. apply Z.ltb_ge in Ha.
    destruct (time t <? 0) eqn:Ht.
    + apply Z.ltb_lt in Ht. apply Z.ltb_lt. lia.
    + apply Z.ltb_ge in Ht. apply Z.ltb_ge. lia.
Qed.

(** The scan treats a negative running value as "nothing seen yet", so its
    sign is the sign of the last task it visits. *)
Lemma scanTasks_sign acc l d :
  liveTasks l <> [] ->
  (scanTasks acc l <? 0) = (time (last (liveTasks l) d) <? 0).
Proof.
  revert acc; induction l as [|[t|] l IH]; intros acc H.
  - now elim H.
  - change (scanTasks acc (Some t :: l)) with (scanTasks (scanStep acc (Some t)) l).
    change (liveTasks (Some t :: l)) with (t :: liveTasks l).
    destruct (liveTasks l) as [|u us] eqn:E.
    + rewrite scanTasks_no_live by assumption. simpl last.
      rewrite scanStep_sign. now rewrite andb_negb_l, orb_false_r.
    + rewrite (IH (scanStep acc (Some t))) by discriminate.
      reflexivity.
  - simpl. apply IH. exact H.
Qed.

Lemma minDueAt_nonneg l m :
  Forall (fun t => 0 <= time t) l -> minDueAt l = Some m -> 0 <= m.
Proof.
  revert m; induction l as [|t l IH]; intros m Hall Hm; simpl in *.
  - discriminate.
  - inversion Hall as [|? ? H0 Hl]; subst.
    destruct (minDueAt l) as [m'|]; inversion Hm; subst.
    + specialize (IH m' Hl eq_refl). lia.
    + assumption.
Qed.

Lemma minDueAt_some l : l <> [] -> exists m, minDueAt l = Some m.
Proof.
  destruct l as [|t l]; intros H; [now elim H|].
  simpl. destruct (minDueAt l); eauto.
Qed.

Lemma minDueAt_lower l m t :
  minDueAt l = Some m -> In t l -> m <= time t.
Proof.
  revert m; induction l as [|u l IH]; intros m Hm Hin; simpl in *.
  - contradiction.
  - destruct (minDueAt l) as [m'|] eqn:E; inversion Hm; subst.
    + destruct Hin as [->|Hin]; [lia|].
      specialize (IH m' eq_refl Hin). lia.
    + destruct Hin as [->|Hin]; [lia|].
      destruct l; [contradiction|]. simpl in E.
      destruct (minDueAt l); discriminate.
Qed.

(** On non-negative times the scan computes the minimum. *)
Lemma scanTasks_min acc l :
  Forall (fun t => 0 <= time t) (liveTasks l) ->
  scanTasks acc l =
    match minDueAt (liveTasks l) with
    | None => acc
    | Some m => if acc <? 0 then m else Z.min acc m
    end.
Proof.
  revert acc; induction l as [|[t|] l IH]; intros acc Hall; simpl in *; auto.
  inversion Hall as [|? ? Ht Hl]; subst.
  change (fold_left scanStep l (if acc <? 0 then time t else Z.min acc (time t)))
    with (scanTasks (if acc <? 0 then time t else Z.min acc (time t)) l).
  rewrite (IH _ Hl).
  destruct (minDueAt (liveTasks l)) as [m|] eqn:E.
  - pose proof (minDueAt_nonneg _ _ Hl E) as Hm.
    destruct (acc <? 0) eqn:Ha.
    + replace (time t <? 0) with false by (symmetry; apply Z.ltb_ge; lia).
      reflexivity.
    + apply Z.ltb_ge in Ha.
      replace (Z.min acc (time t) <? 0) with false
        by (symmetry; apply Z.ltb_ge; lia).
      lia.
  - destruct (acc <? 0); reflexivity.
Qed.

(** ** One pending timer *)

Lemma clearTimeout_owned w :
  timersOwned w -> clearTimeout (currentTimer (queue w)) (timers w) = [].
Proof.
  intros [H|(tm & H1 & H2)].
  - rewrite H. destruct (currentTimer (queue w)); reflexivity.
  - rewrite H1, H2. simpl. now rewrite Nat.eqb_refl.
Qed.

Lemma updateTimer_timers now forced w :
  timersOwned w ->
  timers (updateTimer now forced w) =
    let n := nextTimerTime forced (tasksList (queue w)) in
    if n <? 0 then []
    else [ {| handle := nextHandle w; armedAt := now;
              delay := timerDelay now n |} ].
Proof.
  intros H. unfold updateTimer. cbv zeta.
  rewrite (clearTimeout_owned w H).
  destruct (nextTimerTime forced (tasksList (queue w)) <? 0); reflexivity.
Qed.

Lemma updateTimer_owned now forced w :
  timersOwned w -> timersOwned (updateTimer now forced w).
Proof.
  intros H. pose proof (updateTimer_timers now forced w H) as E.
  cbv zeta in E. unfold timersOwned. rewrite E.
  unfold updateTimer.
  destruct (nextTimerTime forced (tasksList (queue w)) <? 0).
  - now left.
  - right. eexists. split; reflexivity.
Qed.

Lemma updateTimer_fields now forced w :
  tasksList (queue (updateTimer now forced w)) = tasksList (queue w) /\
  currentTimerTimestamp (queue (updateTimer now forced w)) =
    currentTimerTimestamp (queue w) /\
  listeners (queue (updateTimer now forced w)) = listeners (queue w).
Proof.
  unfold updateTimer.
  destruct (nextTimerTime forced (tasksList (queue w)) <? 0); simpl; auto.
Qed.

Lemma handleNewTask_owned now t w :
  timersOwned w -> timersOwned (handleNewTask now t w).
Proof.
  intros H. unfold handleNewTask.
  assert (timersOwned
            (setQueue w (setTasks (queue w) (tasksList (queue w) ++ [Some t])))) as H'
    by exact H.
  destruct (needsRearm t (currentTimerTimestamp (queue w)));
    [apply updateTimer_owned|]; exact H'.
Qed.

Lemma handleNewTask_fields now t w :
  tasksList (queue (handleNewTask now t w)) = tasksList (queue w) ++ [Some t] /\
  currentTimerTimestamp (queue (handleNewTask now t w)) =
    currentTimerTimestamp (queue w) /\
  listeners (queue (handleNewTask now t w)) = listeners (queue w).
Proof.
  unfold handleNewTask.
  destruct (needsRearm t (currentTimerTimestamp (queue w))).
  - destruct (updateTimer_fields now (Some t)
      (setQueue w (setTasks (queue w) (tasksList (queue w) ++ [Some t]))))
      as (-> & -> & ->).
    simpl; auto.
  - simpl; auto.
Qed.

Lemma iter_handleNewTask_inv (P : World -> Prop) now t n w :
  (forall w', P w' -> P (handleNewTask now t w')) ->
  P w -> P (Nat.iter n (handleNewTask now t) w).
Proof.
  intros Hstep Hw. induction n; simpl; auto.
Qed.

Lemma pushTask_owned now v w :
  timersOwned w -> timersOwned (pushTask now v w).
Proof.
  intros H. destruct v; simpl; auto.
  apply iter_handleNewTask_inv; auto using handleNewTask_owned.
Qed.

Lemma pushTask_stamp now v w :
  currentTimerTimestamp (queue w) = None ->
  currentTimerTimestamp (queue (pushTask now v w)) = None.
Proof.
  intros H. destruct v; simpl; auto.
  apply (iter_handleNewTask_inv
           (fun w' => currentTimerTimestamp (queue w') = None)); auto.
  intros w' Hw'. destruct (handleNewTask_fields now t w') as (_ & -> & _).
  exact Hw'.
Qed.

(** ** The loop of #runTasks *)

Section RunTasks.

Variable raises : Phase -> BaseTask -> bool.

Lemma runPhases_returns t ev :
  runPhases raises t lifecycle = (ev, None) ->
  ev = phaseCalls t /\ forall p, raises p t = false.
Proof.
  unfold lifecycle, phaseCalls. simpl.
  destruct (raises BeforeRun t) eqn:E1; [discriminate|].
  destruct (raises Run t) eqn:E2; [discriminate|].
  destruct (raises AfterRun t) eqn:E3; [discriminate|].
  intros H; inversion H; subst. split; [reflexivity|].
  intros [| |]; assumption.
Qed.

Lemma runPhases_quiet t :
  (forall p, raises p t = false) ->
  runPhases raises t lifecycle = (phaseCalls t, None).
Proof.
  intros H. unfold lifecycle, phaseCalls. simpl. now rewrite !H.
Qed.

Lemma runPhases_rejects t ev p :
  runPhases raises t lifecycle = (ev, Some p) ->
  raises p t = true /\
  (forall e, In e ev -> exists ph, e = Called ph t) /\
  In (Called p t) ev /\
  (p <> AfterRun -> ~ In (Called AfterRun t) ev).
Proof.
  unfold lifecycle. simpl.
  destruct (raises BeforeRun t) eqn:E1;
    [|destruct (raises Run t) eqn:E2; [|destruct (raises AfterRun t) eqn:E3]];
    intros H; inversion H; subst; clear H; (split; [assumption|]);
    (split; [intros e He; simpl in He; intuition (subst; eauto)|]);
    (split; [simpl; auto|]);
    intros Hp; simpl; intros Hin; intuition (try discriminate; try congruence).
Qed.

Lemma runPhases_first t p :
  raises p t = true ->
  exists ev p', runPhases raises t lifecycle = (ev, Some p').
Proof.
  intros H. unfold lifecycle. simpl.
  destruct (raises BeforeRun t) eqn:E1; [eauto|].
  destruct (raises Run t) eqn:E2; [eauto|].
  destruct (raises AfterRun t) eqn:E3; [eauto|].
  destruct p; congruence.
Qed.

Arguments runPhases : simpl never.

(** When the loop reaches its end, it has run every due task, in order, and
    emptied exactly their slots. *)
Lemma scanDue_returns now l :
  outcome (scanDue raises now l) = Normal ->
  slots (scanDue raises now l) = map (vacate now) l /\
  completedTasks (scanDue raises now l) = persistedIds (dueTasks now l) /\
  calls (scanDue raises now l) = flat_map phaseCalls (dueTasks now l) /\
  Forall (fun t => forall p, raises p t = false) (dueTasks now l).
Proof.
  unfold dueTasks, persistedIds.
  induction l as [|[t|] l IH]; simpl.
  - intros _. repeat split; constructor.
  - change (time t <? now) with (due now t).
    destruct (due now t) eqn:Ht.
    + destruct (runPhases raises t lifecycle) as [ev [p|]] eqn:E; simpl;
        intros H; [discriminate H|].
      destruct (IH H) as (-> & -> & -> & Hall).
      destruct (runPhases_returns t ev E) as (-> & Hq).
      repeat split; auto.
      destruct (truthy (id t)); reflexivity.
    + simpl. intros H. destruct (IH H) as (-> & -> & -> & Hall).
      repeat split; auto.
  - intros H. destruct (IH H) as (-> & -> & -> & Hall). repeat split; auto.
Qed.

Lemma scanDue_quiet now l :
  (forall t, In (Some t) l -> time t < now -> forall p, raises p t = false) ->
  outcome (scanDue raises now l) = Normal.
Proof.
  induction l as [|[t|] l IH]; simpl; intros H; auto.
  destruct (time t <? now) eqn:Ht.
  - rewrite runPhases_quiet by (apply H; [now left | now apply Z.ltb_lt]).
    simpl. apply IH. intros; apply H; auto.
  - simpl. apply IH. intros; apply H; auto.
Qed.

(** When a phase rejects, the loop stops there: what came before has been
    processed, the failing slot and everything after it are as they were. *)
Lemma scanDue_rejects now pre t post ev p :
  outcome (scanDue raises now pre) = Normal ->
  time t < now ->
  runPhases raises t lifecycle = (ev, Some p) ->
  scanDue raises now (pre ++ Some t :: post) =
    mkLoop (map (vacate now) pre ++ Some t :: post)
           (persistedIds (dueTasks now pre))
           (flat_map phaseCalls (dueTasks now pre) ++ ev)
           (Thrown (TaskLifecycleError p t)).
Proof.
  intros Hpre Ht E.
  unfold dueTasks, persistedIds.
  induction pre as [|[u|] pre IH]; simpl in *.
  - apply Z.ltb_lt in Ht. now rewrite Ht, E.
  - change (time u <? now) with (due now u) in *.
    destruct (due now u) eqn:Hu.
    + destruct (runPhases raises u lifecycle) as [evu [pu|]] eqn:Eu;
        simpl in Hpre; [discriminate Hpre|].
      rewrite (IH Hpre). simpl.
      destruct (runPhases_returns u evu Eu) as (-> & _).
      destruct (truthy (id u)); reflexivity.
    + simpl in Hpre. rewrite (IH Hpre). reflexivity.
  - rewrite (IH Hpre). reflexivity.
Qed.

(** Whatever the outcome: only due tasks of the working set are called, the
    loop itself writes nothing, and a task that is not due keeps its slot. *)
Lemma scanDue_calls_due now l e :
  In e (calls (scanDue raises now l)) ->
  exists p t, e = Called p t /\ In (Some t) l /\ time t < now.
Proof.
  induction l as [|[t|] l IH]; simpl; intros H.
  - contradiction.
  - destruct (time t <? now) eqn:Ht.
    + apply Z.ltb_lt in Ht.
      destruct (runPhases raises t lifecycle) as [ev [p|]] eqn:E; simpl in H.
      * destruct (runPhases_rejects t ev p E) as (_ & Hev & _).
        destruct (Hev e H) as (ph & ->). eauto 6.
      * destruct (runPhases_returns t ev E) as (-> & _).
        apply in_app_or in H. destruct H as [H|H].
        -- unfold phaseCalls in H. apply in_map_iff in H.
           destruct H as (ph & <- & _). eauto 6.
        -- destruct (IH H) as (ph & u & -> & Hu & Hlt). eauto 7.
    + simpl in H. destruct (IH H) as (ph & u & -> & Hu & Hlt). eauto 7.
  - destruct (IH H) as (ph & u & -> & Hu & Hlt). eauto 7.
Qed.

Lemma scanDue_keeps now l t :
  In (Some t) l -> now <= time t -> In (Some t) (slots (scanDue raises now l)).
Proof.
  induction l as [|[u|] l IH]; simpl; intros Hin Hge.
  - contradiction.
  - destruct (time u <? now) eqn:Hu.
    + apply Z.ltb_lt in Hu.
      destruct Hin as [Heq|Hin]; [inversion Heq; subst; lia|].
      destruct (runPhases raises u lifecycle) as [ev [p|]]; simpl; auto.
    + simpl. destruct Hin as [Heq|Hin]; auto.
  - destruct Hin as [Heq|Hin]; [discriminate|auto].
Qed.

Lemma ranTasks_app ev1 ev2 : ranTasks (ev1 ++ ev2) = ranTasks ev1 ++ ranTasks ev2.
Proof.
  induction ev1 as [|[[| |] t|ids] ev1 IH]; simpl; auto. now rewrite IH.
Qed.

Lemma ranTasks_phaseCalls ts : ranTasks (flat_map phaseCalls ts) = ts.
Proof.
  induction ts as [|t ts IH]; simpl; auto. now rewrite IH.
Qed.

Lemma storeWrites_app ev1 ev2 :
  storeWrites (ev1 ++ ev2) = storeWrites ev1 ++ storeWrites ev2.
Proof.
  induction ev1 as [|[p t|ids] ev1 IH]; simpl; auto. now rewrite IH.
Qed.

Lemma storeWrites_phaseCalls ts : storeWrites (flat_map phaseCalls ts) = [].
Proof.
  induction ts as [|t ts IH]; simpl; auto.
Qed.

Lemma storeWrites_in ev ids : In (StoreUpdate ids) ev <-> In ids (storeWrites ev).
Proof.
  induction ev as [|[p t|ids'] ev IH]; simpl.
  - tauto.
  - rewrite <- IH. split; [intros [H|H]; [discriminate|auto] | auto].
  - rewrite <- IH. split; intros [H|H]; auto; left; congruence.
Qed.

Lemma vacate_filter now l :
  filter isTask (map (vacate now) l) =
  map Some (filter (fun t => negb (due now t)) (liveTasks l)).
Proof.
  induction l as [|[t|] l IH]; simpl; auto.
  destruct (due now t); simpl; now rewrite IH.
Qed.

Lemma liveTasks_In l t : In t (liveTasks l) <-> In (Some t) l.
Proof.
  induction l as [|[u|] l IH]; simpl.
  - tauto.
  - rewrite IH. split; intros [H|H]; auto; left; congruence.
  - rewrite IH. split; [auto | intros [H|H]; [discriminate|auto]].
Qed.

Lemma liveTasks_map_Some ts : liveTasks (map Some ts) = ts.
Proof.
  induction ts as [|t ts IH]; simpl; auto. now rewrite IH.
Qed.

Lemma liveTasks_app l1 l2 : liveTasks (l1 ++ l2) = liveTasks l1 ++ liveTasks l2.
Proof.
  induction l1 as [|[t|] l1 IH]; simpl; auto. now rewrite IH.
Qed.

(** The whole of [#runTasks] when it returns. *)
Lemma runTasks_returns now q q' ev :
  runTasks raises now q = (Normal, q', ev) ->
  let ts := dueTasks now (tasksList q) in
  q' = setTasks q (map Some (filter (fun t => negb (due now t))
                                    (liveTasks (tasksList q)))) /\
  ev = flat_map phaseCalls ts ++
       match persistedIds ts with [] => [] | ids => [StoreUpdate ids] end /\
  Forall (fun t => forall p, raises p t = false) ts.
Proof.
  unfold runTasks.
  destruct (outcome (scanDue raises now (tasksList q))) eqn:Ho; [|discriminate].
  destruct (scanDue_returns now (tasksList q) Ho) as (-> & -> & -> & Hall).
  rewrite vacate_filter. cbv zeta.
  destruct (persistedIds (dueTasks now (tasksList q))) eqn:Ep;
    intros H; inversion H; subst; repeat split; auto.
  now rewrite app_nil_r.
Qed.

Lemma runTasks_quiet now q :
  (forall t, In (Some t) (tasksList q) -> time t < now ->
             forall p, raises p t = false) ->
  fst (fst (runTasks raises now q)) = Normal.
Proof.
  intros H. unfold runTasks. rewrite (scanDue_quiet now _ H).
  destruct (completedTasks (scanDue raises now (tasksList q))); reflexivity.
Qed.

End RunTasks.

(** ** What every reachable world satisfies *)

Section Reachability.

Variable raises : Phase -> BaseTask -> bool.
Variable resolveTask : TaskModel -> Exception + BaseTask.

Lemma runTasks_fields now q :
  let q' := snd (fst (runTasks raises now q)) in
  currentTimer q' = currentTimer q /\
  currentTimerTimestamp q' = currentTimerTimestamp q /\
  listeners q' = listeners q.
Proof.
  unfold runTasks.
  destruct (outcome (scanDue raises now (tasksList q))).
  - destruct (completedTasks (scanDue raises now (tasksList q))); simpl; auto.
  - simpl; auto.
Qed.

Lemma loadRecords_fields rows q :
  let q' := snd (loadTasksFromDatabase resolveTask rows q) in
  currentTimer q' = currentTimer q /\
  currentTimerTimestamp q' = currentTimerTimestamp q /\
  listeners q' = listeners q.
Proof.
  unfold loadTasksFromDatabase.
  destruct (loadRecords resolveTask rows (tasksList q)); simpl; auto.
Qed.

Lemma timersOwned_setQueue w q :
  timersOwned w -> currentTimer q = currentTimer (queue w) ->
  timersOwned (setQueue w q).
Proof.
  intros [H|(tm & H1 & H2)] E; [now left|].
  right. exists tm. simpl. split; congruence.
Qed.

Lemma initialize_owned now rows w :
  timersOwned w -> timersOwned (snd (initialize resolveTask now rows w)).
Proof.
  intros H. unfold initialize.
  pose proof (loadRecords_fields rows (subscribeEvents (queue w))) as (E & _).
  destruct (loadTasksFromDatabase resolveTask rows (subscribeEvents (queue w)))
    as [[|e] q]; simpl in *.
  - apply updateTimer_owned. apply timersOwned_setQueue; assumption.
  - apply timersOwned_setQueue; assumption.
Qed.

Lemma initialize_stamp now rows w :
  currentTimerTimestamp (queue w) = None ->
  currentTimerTimestamp (queue (snd (initialize resolveTask now rows w))) = None.
Proof.
  intros H. unfold initialize.
  pose proof (loadRecords_fields rows (subscribeEvents (queue w))) as (_ & E & _).
  destruct (loadTasksFromDatabase resolveTask rows (subscribeEvents (queue w)))
    as [[|e] q]; simpl in *.
  - destruct (updateTimer_fields now None (setQueue w q)) as (_ & -> & _).
    simpl. congruence.
  - congruence.
Qed.

(** Firing the only pending timer leaves none pending. *)
Lemma fired_timer_gone h w :
  timersOwned w ->
  existsb (fun tm => Nat.eqb (handle tm) h) (timers w) = true ->
  filter (fun tm => negb (Nat.eqb (handle tm) h)) (timers w) = [].
Proof.
  intros [H|(tm & H1 & _)]; [rewrite H; auto|].
  rewrite H1. simpl. destruct (Nat.eqb (handle tm) h); [reflexivity|discriminate].
Qed.

Lemma fire_owned h now1 now2 w :
  timersOwned w -> timersOwned (snd (fst (fire raises h now1 now2 w))).
Proof.
  intros H. unfold fire.
  destruct (existsb (fun tm => Nat.eqb (handle tm) h) (timers w)) eqn:Eh;
    [|exact H].
  pose proof (runTasks_fields now1 (queue w)) as (E & _).
  simpl queue.
  destruct (runTasks raises now1 (queue w)) as [[[|e] q] ev]; simpl in *.
  - apply updateTimer_owned. left. simpl. now apply fired_timer_gone.
  - left. simpl. now apply fired_timer_gone.
Qed.

Lemma fire_stamp h now1 now2 w :
  currentTimerTimestamp (queue w) = None ->
  currentTimerTimestamp (queue (snd (fst (fire raises h now1 now2 w)))) = None.
Proof.
  intros H. unfold fire.
  destruct (existsb (fun tm => Nat.eqb (handle tm) h) (timers w)); [|exact H].
  pose proof (runTasks_fields now1 (queue w)) as (_ & E & _).
  simpl queue.
  destruct (runTasks raises now1 (queue w)) as [[[|e] q] ev]; simpl in *.
  - destruct (updateTimer_fields now2 None
      (setQueue {| queue := queue w;
                   timers := filter (fun tm => negb (Nat.eqb (handle tm) h)) (timers w);
                   nextHandle := nextHandle w |} q)) as (_ & -> & _).
    simpl. congruence.
  - congruence.
Qed.

(** At most one timer is pending, and it is the one the queue remembers. *)
Lemma reachable_owned w : reachable raises resolveTask w -> timersOwned w.
Proof.
  induction 1.
  - now left.
  - now apply initialize_owned.
  - now apply pushTask_owned.
  - now apply fire_owned.
Qed.

(** No operation assigns [#currentTimerTimestamp]: it stays [undefined]. *)
Lemma reachable_stamp w :
  reachable raises resolveTask w -> currentTimerTimestamp (queue w) = None.
Proof.
  induction 1.
  - reflexivity.
  - now apply initialize_stamp.
  - now apply pushTask_stamp.
  - now apply fire_stamp.
Qed.

(** So the test of line 50 always succeeds: with one handler subscribed,
    an enqueue is a push followed by a rearm forced on the new task. *)
Lemma pushTask_always_rearms now t w :
  reachable raises resolveTask w -> listeners (queue w) = 1%nat ->
  pushTask now (VTask t) w =
    updateTimer now (Some t)
      (setQueue w (setTasks (queue w) (tasksList (queue w) ++ [Some t]))).
Proof.
  intros Hr Hl. simpl. rewrite Hl. simpl. unfold handleNewTask.
  now rewrite (reachable_stamp w Hr).
Qed.

End Reachability.

(** * The claims *)

(** ** C7: the delay of the armed timer *)

Lemma timerDelay_spec now n :
  (Z.max 0 (n - now) < MAX_TIMER_TIME -> timerDelay now n = Z.max 0 (n - now)) /\
  (MAX_TIMER_TIME <= Z.max 0 (n - now) -> timerDelay now n = MAX_TIMER_TIME) /\
  0 <= timerDelay now n <= MAX_TIMER_TIME.
Proof.
  unfold timerDelay, MAX_TIMER_TIME.
  destruct (Z.max now n - now >=? 864000000) eqn:E.
  - apply Z.geb_le in E. lia.
  - assert (Z.max now n - now < 864000000).
    { destruct (Z.ltb_spec (Z.max now n - now) 864000000) as [H|H]; [exact H|].
      apply Z.geb_le in H. congruence. }
    lia.
Qed.

(** C7.  Whenever a rearm has a candidate target (a non-negative
    [nextTimerTime]), it arms one new timer, after cancelling the one the
    queue held; the delay of that timer is [max(0, candidate - now)] when
    that is below the horizon of 864000000 ms and the horizon otherwise, so
    it is never negative and never above the horizon. *)
Theorem C7_timer_delay_clamped now forced w :
  0 <= nextTimerTime forced (tasksList (queue w)) ->
  exists tm,
    timers (updateTimer now forced w) =
      clearTimeout (currentTimer (queue w)) (timers w) ++ [tm] /\
    handle tm = nextHandle w /\ armedAt tm = now /\
    (Z.max 0 (nextTimerTime forced (tasksList (queue w)) - now) < 864000000 ->
     delay tm = Z.max 0 (nextTimerTime forced (tasksList (queue w)) - now)) /\
    (864000000 <= Z.max 0 (nextTimerTime forced (tasksList (queue w)) - now) ->
     delay tm = 864000000) /\
    0 <= delay tm <= 864000000 /\
    MAX_TIMER_TIME = 864000000.
Proof.
  intros Hn. unfold updateTimer. cbv zeta.
  replace (nextTimerTime forced (tasksList (queue w)) <? 0) with false
    by (symmetry; apply Z.ltb_ge; exact Hn).
  eexists. split; [reflexivity|]. simpl.
  pose proof (timerDelay_spec now (nextTimerTime forced (tasksList (queue w))))
    as (H1 & H2 & H3).
  change 864000000 with MAX_TIMER_TIME. auto 8.
Qed.

(** The far-future task enqueued at clock 500 gets the horizon as delay. *)
Lemma C7_timer_delay_clamped_witness :
  0 <= nextTimerTime (Some farTask) (tasksList (queue readyWorld)) /\
  exists tm,
    timers (updateTimer 500 (Some farTask) readyWorld) = [] ++ [tm] /\
    handle tm = 0%nat /\ armedAt tm = 500 /\
    (Z.max 0 (5000000000 - 500) < 864000000 ->
     delay tm = Z.max 0 (5000000000 - 500)) /\
    (864000000 <= Z.max 0 (5000000000 - 500) -> delay tm = 864000000) /\
    0 <= delay tm <= 864000000 /\
    MAX_TIMER_TIME = 864000000.
Proof.
  assert (0 <= nextTimerTime (Some farTask) (tasksList (queue readyWorld))) as H
    by (vm_compute; discriminate).
  split; [exact H|].
  exact (C7_timer_delay_clamped 500 (Some farTask) readyWorld H).
Defined.

(** ** C5, C6, C9: one wake-up *)

Lemma scanDue_calls_only raises now l :
  storeWrites (calls (scanDue raises now l)) = [].
Proof.
  assert (forall ev, (forall e, In e ev -> exists p t, e = Called p t) ->
                     storeWrites ev = []) as H.
  { induction ev as [|[p t|ids] ev IH]; intros Hev; simpl; auto.
    - apply IH. intros; apply Hev; now right.
    - destruct (Hev (StoreUpdate ids) (or_introl eq_refl)) as (p & t & E).
      discriminate. }
  apply H. intros e He.
  destruct (scanDue_calls_due raises now l e He) as (p & t & -> & _). eauto.
Qed.

Lemma runTasks_trace raises now q :
  let r := scanDue raises now (tasksList q) in
  exists tail,
    snd (runTasks raises now q) = calls r ++ tail /\
    (tail = [] \/ exists ids, tail = [StoreUpdate ids]).
Proof.
  unfold runTasks. cbv zeta.
  destruct (outcome (scanDue raises now (tasksList q))).
  - destruct (completedTasks (scanDue raises now (tasksList q))) eqn:E; simpl.
    + exists []. rewrite app_nil_r. auto.
    + eexists. split; [reflexivity|]. right. eauto.
  - exists []. simpl. rewrite app_nil_r. auto.
Qed.

Lemma runTasks_calls_due raises now q p t :
  In (Called p t) (snd (runTasks raises now q)) ->
  In (Some t) (tasksList q) /\ time t < now.
Proof.
  destruct (runTasks_trace raises now q) as (tail & -> & Ht). intros H.
  apply in_app_or in H. destruct H as [H|H].
  - destruct (scanDue_calls_due raises now _ _ H) as (p' & t' & E & H1 & H2).
    inversion E; subst. auto.
  - destruct Ht as [->|(ids & ->)]; simpl in H; [contradiction|].
    destruct H as [H|[]]. discriminate.
Qed.

Lemma runTasks_keeps raises now q t :
  In (Some t) (tasksList q) -> now <= time t ->
  In (Some t) (tasksList (snd (fst (runTasks raises now q)))).
Proof.
  intros Hin Hge. pose proof (scanDue_keeps raises now _ t Hin Hge) as Hs.
  unfold runTasks.
  destruct (outcome (scanDue raises now (tasksList q))).
  - assert (In (Some t) (filter isTask (slots (scanDue raises now (tasksList q)))))
      by (apply filter_In; auto).
    destruct (completedTasks (scanDue raises now (tasksList q))); simpl; auto.
  - simpl. exact Hs.
Qed.

(** C5.  In every wake-up only tasks of the working set whose time is
    strictly below the captured [now] are called; a task whose time is [now]
    or later, in particular exactly [now], is not called and keeps its place
    in the working set; and when the wake-up returns, every task strictly
    below [now] has gone through its three phases, the tasks run are exactly
    the due ones in working-set order, and none of them is left in the
    working set. *)
Theorem C5_strictly_due_tasks_run raises now q c q' ev :
  runTasks raises now q = (c, q', ev) ->
  (forall p t, In (Called p t) ev -> In (Some t) (tasksList q) /\ time t < now) /\
  (forall t, In (Some t) (tasksList q) -> time t = now ->
     In (Some t) (tasksList q') /\ forall p, ~ In (Called p t) ev) /\
  (forall t, In (Some t) (tasksList q) -> now <= time t ->
     In (Some t) (tasksList q') /\ forall p, ~ In (Called p t) ev) /\
  (c = Normal ->
     ranTasks ev = dueTasks now (tasksList q) /\
     liveTasks (tasksList q') =
       filter (fun t => negb (time t <? now)) (liveTasks (tasksList q)) /\
     forall t, In (Some t) (tasksList q) -> time t < now ->
       (forall p, In (Called p t) ev) /\ ~ In (Some t) (tasksList q')).
Proof.
  intros E.
  assert (forall p t, In (Called p t) ev ->
                      In (Some t) (tasksList q) /\ time t < now) as Hcalls.
  { intros p t H. apply (runTasks_calls_due raises now q p t).
    now rewrite E. }
  assert (forall t, In (Some t) (tasksList q) -> now <= time t ->
            In (Some t) (tasksList q') /\ forall p, ~ In (Called p t) ev) as Hkeep.
  { intros t Hin Hge. split.
    - pose proof (runTasks_keeps raises now q t Hin Hge) as H.
      now rewrite E in H.
    - intros p Hp. destruct (Hcalls p t Hp). lia. }
  split; [exact Hcalls|]. split; [intros t Hin Ht; apply Hkeep; [auto|lia]|].
  split; [exact Hkeep|].
  intros ->. destruct (runTasks_returns raises now q q' ev E) as (-> & -> & _).
  simpl tasksList. rewrite liveTasks_map_Some.
  split.
  { rewrite ranTasks_app, ranTasks_phaseCalls.
    destruct (persistedIds (dueTasks now (tasksList q)));
      simpl; now rewrite app_nil_r. }
  split; [reflexivity|].
  intros t Hin Ht. split.
  - intros p. apply in_or_app. left. apply in_flat_map. exists t. split.
    + unfold dueTasks. apply filter_In. split.
      * now apply liveTasks_In.
      * now apply Z.ltb_lt.
    + unfold phaseCalls, lifecycle. destruct p; simpl; auto.
  - intros H. apply in_map_iff in H. destruct H as (u & Eu & Hu).
    inversion Eu; subst. apply filter_In in Hu. destruct Hu as (_ & Hu).
    unfold due in Hu. apply negb_true_iff, Z.ltb_ge in Hu. lia.
Qed.

(** A wake-up at clock 2000 over tasks due at 2000, 1000, 1200 and 1500: the
    task due at 2000 stays, the other three run. *)
Lemma C5_strictly_due_tasks_run_witness :
  runTasks neverRaises 2000
    (mkQueue [Some taskA; Some taskC; Some zeroIdTask; Some transientTask]
             None None 1)
  = (Normal, mkQueue [Some taskA] None None 1,
     phaseCalls taskC ++ phaseCalls zeroIdTask ++ phaseCalls transientTask
       ++ [StoreUpdate [IdNum 3]]) /\
  (In (Some taskA) [Some taskA] /\
   forall p, ~ In (Called p taskA)
     (phaseCalls taskC ++ phaseCalls zeroIdTask ++ phaseCalls transientTask
        ++ [StoreUpdate [IdNum 3]])).
Proof.
  assert (runTasks neverRaises 2000
            (mkQueue [Some taskA; Some taskC; Some zeroIdTask; Some transientTask]
                     None None 1)
          = (Normal, mkQueue [Some taskA] None None 1,
             phaseCalls taskC ++ phaseCalls zeroIdTask ++ phaseCalls transientTask
               ++ [StoreUpdate [IdNum 3]])) as E by reflexivity.
  split; [exact E|].
  destruct (C5_strictly_due_tasks_run _ _ _ _ _ _ E) as (_ & Hnow & _).
  apply (Hnow taskA); [simpl; auto | reflexivity].
Defined.

(** C6.  A wake-up issues the batched store write at most once; when it
    issues it, the id list is not empty, at least one task run has a truthy
    id, and the list is exactly the truthy ids of the tasks run, in the
    order they ran; and a wake-up that returns after running a task with a
    truthy id does issue it. *)
Theorem C6_single_batched_write raises now q c q' ev :
  runTasks raises now q = (c, q', ev) ->
  (List.length (storeWrites ev) <= 1)%nat /\
  (forall ids, In (StoreUpdate ids) ev ->
     ids <> [] /\
     ids = persistedIds (ranTasks ev) /\
     ranTasks ev = dueTasks now (tasksList q) /\
     (exists t, In t (ranTasks ev) /\ truthy (id t) = true) /\
     (forall i, In i ids <->
                truthy i = true /\ exists t, In t (ranTasks ev) /\ id t = i)) /\
  (c = Normal -> persistedIds (ranTasks ev) <> [] ->
     storeWrites ev = [persistedIds (ranTasks ev)]).
Proof.
  intros E. unfold runTasks in E.
  pose proof (scanDue_calls_only raises now (tasksList q)) as Hno.
  destruct (outcome (scanDue raises now (tasksList q))) eqn:Ho.
  - destruct (scanDue_returns raises now (tasksList q) Ho) as (Hs & Hc & Hcalls & _).
    rewrite Hc, Hcalls in E. rewrite Hcalls in Hno.
    assert (ranTasks ev = dueTasks now (tasksList q)) as Hran.
    { destruct (persistedIds (dueTasks now (tasksList q)));
        inversion E; subst; [|rewrite ranTasks_app; simpl; rewrite app_nil_r];
        apply ranTasks_phaseCalls. }
    rewrite Hran.
    destruct (persistedIds (dueTasks now (tasksList q))) as [|i0 ids0] eqn:Ep;
      inversion E; subst; clear E.
    + rewrite Hno. split; [simpl; lia|]. split.
      * intros ids H. apply storeWrites_in in H. rewrite Hno in H. destruct H.
      * intros _ H. now elim H.
    + rewrite storeWrites_app, Hno. simpl. split; [lia|]. split.
      * intros ids H. apply storeWrites_in in H.
        rewrite storeWrites_app, Hno in H. simpl in H.
        destruct H as [<-|[]].
        split; [discriminate|]. split; [reflexivity|]. split; [reflexivity|].
        assert (forall i, In i (i0 :: ids0) <->
                  truthy i = true /\
                  exists t, In t (dueTasks now (tasksList q)) /\ id t = i) as Hiff.
        { intros i. rewrite <- Ep. unfold persistedIds.
          rewrite filter_In, in_map_iff.
          split; [intros ((t & Ht & Hin) & Hi) | intros (Hi & t & Hin & Ht)];
            eauto. }
        split; [|exact Hiff].
        destruct (proj1 (Hiff i0) (or_introl eq_refl)) as (Ht & t & Hin & <-).
        eauto.
      * reflexivity.
  - inversion E; subst; clear E. rewrite Hno. split; [simpl; lia|]. split.
    + intros ids H. apply storeWrites_in in H. rewrite Hno in H. destruct H.
    + discriminate.
Qed.

Lemma C6_single_batched_write_witness :
  runTasks neverRaises 2000
    (mkQueue [Some taskA; Some taskC; Some zeroIdTask; Some transientTask]
             None None 1)
  = (Normal, mkQueue [Some taskA] None None 1,
     phaseCalls taskC ++ phaseCalls zeroIdTask ++ phaseCalls transientTask
       ++ [StoreUpdate [IdNum 3]]) /\
  (List.length (storeWrites
     (phaseCalls taskC ++ phaseCalls zeroIdTask ++ phaseCalls transientTask
        ++ [StoreUpdate [IdNum 3]])) <= 1)%nat.
Proof.
  assert (runTasks neverRaises 2000
            (mkQueue [Some taskA; Some taskC; Some zeroIdTask; Some transientTask]
                     None None 1)
          = (Normal, mkQueue [Some taskA] None None 1,
             phaseCalls taskC ++ phaseCalls zeroIdTask ++ phaseCalls transientTask
               ++ [StoreUpdate [IdNum 3]])) as E by reflexivity.
  split; [exact E|].
  exact (proj1 (C6_single_batched_write _ _ _ _ _ _ E)).
Defined.

(** C9.  In a wake-up that returns, a task that was run and whose id is
    falsy (undefined, null, zero or the empty string) is gone from the
    working set, and its id is in no write; every id that is written is
    truthy, so a field that is present but holds zero or the empty string is
    left out like an absent one. *)
Theorem C9_falsy_id_not_written raises now q q' ev t :
  runTasks raises now q = (Normal, q', ev) ->
  In t (ranTasks ev) ->
  truthy (id t) = false ->
  ~ In (Some t) (tasksList q') /\
  (forall ids, In (StoreUpdate ids) ev -> ~ In (id t) ids) /\
  (forall ids i, In (StoreUpdate ids) ev -> In i ids -> truthy i = true) /\
  (id t = IdUndefined \/ id t = IdNull \/ id t = IdNum 0 \/
   id t = IdStr EmptyString).
Proof.
  intros E Hran Hf.
  destruct (runTasks_returns raises now q q' ev E) as (Hq & Hev & _).
  assert (forall ids i, In (StoreUpdate ids) ev -> In i ids -> truthy i = true)
    as Htruthy.
  { intros ids i Hin Hi. rewrite Hev in Hin. apply in_app_or in Hin.
    destruct Hin as [Hin|Hin].
    - apply storeWrites_in in Hin. rewrite storeWrites_phaseCalls in Hin.
      destruct Hin.
    - destruct (persistedIds (dueTasks now (tasksList q))) as [|i0 ids0] eqn:Ep;
        simpl in Hin; [contradiction|].
      destruct Hin as [Hin|[]]. inversion Hin; subst.
      rewrite <- Ep in Hi. unfold persistedIds in Hi.
      apply filter_In in Hi. tauto. }
  assert (In t (dueTasks now (tasksList q))) as Hdue.
  { rewrite Hev, ranTasks_app, ranTasks_phaseCalls in Hran.
    apply in_app_or in Hran. destruct Hran as [H|H]; [exact H|].
    destruct (persistedIds (dueTasks now (tasksList q))); simpl in H;
      contradiction. }
  split.
  - rewrite Hq. simpl. intros H. apply in_map_iff in H.
    destruct H as (u & Eu & Hu). inversion Eu; subst.
    apply filter_In in Hu. destruct Hu as (_ & Hu).
    apply filter_In in Hdue. destruct Hdue as (_ & Hd).
    rewrite Hd in Hu. discriminate.
  - split; [|split; [exact Htruthy|]].
    + intros ids Hin Hid. rewrite (Htruthy ids (id t) Hin Hid) in Hf.
      discriminate.
    + destruct (id t) as [| |n|[|a s]]; simpl in Hf; auto; try discriminate.
      apply negb_false_iff, Z.eqb_eq in Hf. subst. auto.
Qed.

(** The task whose id is the number zero is run at clock 2000, dropped from
    the working set and left out of the write. *)
Lemma C9_falsy_id_not_written_witness :
  runTasks neverRaises 2000
    (mkQueue [Some taskA; Some taskC; Some zeroIdTask; Some transientTask]
             None None 1)
  = (Normal, mkQueue [Some taskA] None None 1,
     phaseCalls taskC ++ phaseCalls zeroIdTask ++ phaseCalls transientTask
       ++ [StoreUpdate [IdNum 3]]) /\
  truthy (id zeroIdTask) = false /\
  ~ In (Some zeroIdTask) [Some taskA] /\
  ~ In (IdNum 0) [IdNum 3].
Proof.
  assert (runTasks neverRaises 2000
            (mkQueue [Some taskA; Some taskC; Some zeroIdTask; Some transientTask]
                     None None 1)
          = (Normal, mkQueue [Some taskA] None None 1,
             phaseCalls taskC ++ phaseCalls zeroIdTask ++ phaseCalls transientTask
               ++ [StoreUpdate [IdNum 3]])) as E by reflexivity.
  assert (In zeroIdTask
            (ranTasks (phaseCalls taskC ++ phaseCalls zeroIdTask
                         ++ phaseCalls transientTask ++ [StoreUpdate [IdNum 3]])))
    as Hran by (simpl; auto).
  assert (truthy (id zeroIdTask) = false) as Hf by reflexivity.
  destruct (C9_falsy_id_not_written _ _ _ _ _ _ E Hran Hf) as (H1 & H2 & _).
  split; [exact E|]. split; [exact Hf|]. split; [exact H1|].
  apply (H2 [IdNum 3]). simpl. auto 12.
Defined.

(** ** C8: the rearm after a fire *)

Lemma scan_of_nonneg l :
  Forall (fun t => 0 <= time t) (liveTasks l) ->
  nextTimerTime None l =
    match minDueAt (liveTasks l) with Some m => m | None => -1 end.
Proof.
  intros H. unfold nextTimerTime. simpl.
  rewrite (scanTasks_min (-1) l H).
  destruct (minDueAt (liveTasks l)); reflexivity.
Qed.

Lemma rearm_of_nonneg now w :
  timersOwned w ->
  Forall (fun t => 0 <= time t) (workingSet w) ->
  (workingSet w = [] -> timers (updateTimer now None w) = []) /\
  (workingSet w <> [] ->
   exists m, minDueAt (workingSet w) = Some m /\ 0 <= m /\
     timers (updateTimer now None w) =
       [ {| handle := nextHandle w; armedAt := now; delay := timerDelay now m |} ] /\
     currentTimer (queue (updateTimer now None w)) = Some (nextHandle w)).
Proof.
  intros Hown Hall. unfold workingSet in *.
  pose proof (updateTimer_timers now None w Hown) as Ht. cbv zeta in Ht.
  rewrite Ht. unfold updateTimer.
  rewrite (scan_of_nonneg _ Hall).
  split.
  - intros E. rewrite E. reflexivity.
  - intros Hne. destruct (minDueAt_some _ Hne) as (m & Em).
    pose proof (minDueAt_nonneg _ _ Hall Em) as Hm.
    exists m. rewrite Em.
    replace (m <? 0) with false by (symmetry; apply Z.ltb_ge; exact Hm).
    auto.
Qed.

(** C8.  When the pending timer fires and the run phase returns, the
    callback always goes on to a scanning rearm, whether or not any task
    was due.  The tasks left are those not strictly before [now].  With a
    clock reading that is not negative (or task times that are not), if any
    task is left then exactly one timer is pending afterwards, newly
    created, aimed at the minimum time of what is left with the delay
    clamped to the horizon; if none is left, no timer is. *)
Theorem C8_fire_rearms raises resolveTask h now1 now2 w w' ev :
  reachable raises resolveTask w ->
  In h (map handle (timers w)) ->
  0 <= now1 \/ Forall (fun t => 0 <= time t) (workingSet w) ->
  fire raises h now1 now2 w = (Normal, w', ev) ->
  workingSet w' = filter (fun t => negb (time t <? now1)) (workingSet w) /\
  (dueTasks now1 (tasksList (queue w)) = [] -> ev = []) /\
  (workingSet w' = [] -> timers w' = []) /\
  (workingSet w' <> [] ->
   exists m, minDueAt (workingSet w') = Some m /\
     timers w' =
       [ {| handle := nextHandle w; armedAt := now2; delay := timerDelay now2 m |} ] /\
     currentTimer (queue w') = Some (nextHandle w) /\
     0 <= delay {| handle := nextHandle w; armedAt := now2;
                   delay := timerDelay now2 m |} <= MAX_TIMER_TIME).
Proof.
  intros Hr Hh Hnow E.
  pose proof (reachable_owned raises resolveTask w Hr) as Hown.
  unfold fire in E.
  assert (existsb (fun tm => Nat.eqb (handle tm) h) (timers w) = true) as Hex.
  { apply in_map_iff in Hh. destruct Hh as (tm & <- & Hin).
    apply existsb_exists. exists tm. split; [exact Hin|apply Nat.eqb_refl]. }
  rewrite Hex in E. rewrite (fired_timer_gone h w Hown Hex) in E.
  simpl queue in E.
  destruct (runTasks raises now1 (queue w)) as [[[|e] q] ev0] eqn:Er;
    [|discriminate].
  inversion E; subst; clear E.
  destruct (runTasks_returns raises now1 (queue w) q ev Er) as (Hq & Hev & _).
  set (w1 := setQueue {| queue := queue w; timers := []; nextHandle := nextHandle w |} q).
  assert (workingSet w1 =
          filter (fun t => negb (time t <? now1)) (workingSet w)) as Hws.
  { unfold workingSet, w1. simpl. rewrite Hq. simpl.
    apply liveTasks_map_Some. }
  assert (workingSet (updateTimer now2 None w1) = workingSet w1) as Hsame.
  { unfold workingSet.
    now destruct (updateTimer_fields now2 None w1) as (-> & _). }
  assert (timersOwned w1) as Hown1 by now left.
  assert (Forall (fun t => 0 <= time t) (workingSet w1)) as Hall.
  { rewrite Hws. apply Forall_forall. intros t Ht.
    apply filter_In in Ht. destruct Ht as (Hin & Ht).
    apply negb_true_iff, Z.ltb_ge in Ht.
    destruct Hnow as [Hnow|Hnow]; [lia|].
    rewrite Forall_forall in Hnow. now apply Hnow. }
  destruct (rearm_of_nonneg now2 w1 Hown1 Hall) as (Hidle & Harm).
  rewrite Hsame. split; [exact Hws|]. split.
  { intros Hd. rewrite Hev, Hd. reflexivity. }
  split; [exact Hidle|].
  intros Hne. destruct (Harm Hne) as (m & Em & Hm & Ht & Hc).
  exists m. repeat split; auto; apply (timerDelay_spec now2 m).
Qed.

(** The queue holding tasks due at 2000, 5000 and 5000000000 was armed with
    the horizon at clock 500; when that timer fires at clock 864000500 the
    first two tasks run and a new timer is armed for the one that is left. *)
Lemma C8_fire_rearms_witness :
  reachable neverRaises loader busyWorld /\
  In 1%nat (map handle (timers busyWorld)) /\
  (0 <= 864000500 \/ Forall (fun t => 0 <= time t) (workingSet busyWorld)) /\
  fire neverRaises 1 864000500 864000501 busyWorld =
    (Normal,
     {| queue := mkQueue [Some farTask] (Some 2%nat) None 1;
        timers := [ {| handle := 2; armedAt := 864000501; delay := 864000000 |} ];
        nextHandle := 3 |},
     phaseCalls taskA ++ phaseCalls taskB ++ [StoreUpdate [IdNum 1; IdNum 2]]) /\
  workingSet {| queue := mkQueue [Some farTask] (Some 2%nat) None 1;
        timers := [ {| handle := 2; armedAt := 864000501; delay := 864000000 |} ];
        nextHandle := 3 |}
  = filter (fun t => negb (time t <? 864000500)) (workingSet busyWorld).
Proof.
  assert (reachable neverRaises loader busyWorld) as Hr.
  { unfold busyWorld. apply reach_push. apply reach_initialize. apply reach_new. }
  assert (In 1%nat (map handle (timers busyWorld))) as Hh by (simpl; auto).
  assert (0 <= 864000500 \/
          Forall (fun t => 0 <= time t) (workingSet busyWorld)) as Hn
    by (left; lia).
  assert (fire neverRaises 1 864000500 864000501 busyWorld =
    (Normal,
     {| queue := mkQueue [Some farTask] (Some 2%nat) None 1;
        timers := [ {| handle := 2; armedAt := 864000501; delay := 864000000 |} ];
        nextHandle := 3 |},
     phaseCalls taskA ++ phaseCalls taskB ++ [StoreUpdate [IdNum 1; IdNum 2]]))
    as E by reflexivity.
  repeat (split; [assumption|]).
  exact (proj1 (C8_fire_rearms _ _ _ _ _ _ _ _ Hr Hh Hn E)).
Defined.

(** ** C10: a scanning rearm over negative times *)

(** C10, as the code has it.  A scanning rearm over a non-empty working set
    ends on the sign of the last task it visits: if that task's time is
    negative, the timer the queue held is cancelled and none is armed; if it
    is not negative, exactly one timer is armed, whatever the earlier tasks'
    times; and when every task time is non-negative that timer aims at the
    minimum. *)
Theorem C10_scan_follows_last_task raises resolveTask now w d :
  reachable raises resolveTask w ->
  workingSet w <> [] ->
  (time (last (workingSet w) d) < 0 -> timers (updateTimer now None w) = []) /\
  (0 <= time (last (workingSet w) d) ->
   exists tm, timers (updateTimer now None w) = [tm] /\
              handle tm = nextHandle w /\ armedAt tm = now) /\
  (Forall (fun t => 0 <= time t) (workingSet w) ->
   exists m, minDueAt (workingSet w) = Some m /\
     timers (updateTimer now None w) =
       [ {| handle := nextHandle w; armedAt := now; delay := timerDelay now m |} ]).
Proof.
  intros Hr Hne.
  pose proof (reachable_owned raises resolveTask w Hr) as Hown.
  pose proof (updateTimer_timers now None w Hown) as Ht. cbv zeta in Ht.
  assert ((nextTimerTime None (tasksList (queue w)) <? 0) =
          (time (last (workingSet w) d) <? 0)) as Hsign.
  { unfold nextTimerTime. simpl. now apply scanTasks_sign. }
  split; [|split].
  - intros Hneg. rewrite Ht, Hsign.
    now replace (time (last (workingSet w) d) <? 0) with true
      by (symmetry; apply Z.ltb_lt; exact Hneg).
  - intros Hpos. rewrite Ht, Hsign.
    replace (time (last (workingSet w) d) <? 0) with false
      by (symmetry; apply Z.ltb_ge; exact Hpos).
    eexists. repeat split.
  - intros Hall.
    destruct (rearm_of_nonneg now w Hown Hall) as (_ & Harm).
    destruct (Harm Hne) as (m & Em & _ & Htm & _). eauto.
Qed.

Lemma C10_scan_follows_last_task_witness :
  reachable neverRaises loader mixedSignWorld /\
  workingSet mixedSignWorld <> [] /\
  0 <= time (last (workingSet mixedSignWorld) earlyTask) /\
  exists tm, timers (updateTimer 10 None mixedSignWorld) = [tm] /\
             handle tm = nextHandle mixedSignWorld /\ armedAt tm = 10.
Proof.
  assert (reachable neverRaises loader mixedSignWorld) as Hr.
  { unfold mixedSignWorld. apply reach_initialize. apply reach_new. }
  assert (workingSet mixedSignWorld <> []) as Hne by (vm_compute; discriminate).
  assert (0 <= time (last (workingSet mixedSignWorld) earlyTask)) as Hpos
    by (vm_compute; discriminate).
  repeat (split; [assumption|]).
  exact (proj1 (proj2
    (C10_scan_follows_last_task _ _ 10 mixedSignWorld earlyTask Hr Hne)) Hpos).
Defined.

(** The working set holds a task due at -3 followed by one due at 7: its
    minimum is negative, and the scanning rearm still arms a timer. *)
Lemma C10_negative_minimum_still_arms : ~ negative_minimum_idles_spec.
Proof.
  intros H.
  specialize (H neverRaises loader 10 mixedSignWorld (-3)).
  assert (reachable neverRaises loader mixedSignWorld) as Hr.
  { unfold mixedSignWorld. apply reach_initialize. apply reach_new. }
  specialize (H Hr eq_refl eq_refl). vm_compute in H. discriminate H.
Qed.

(** ** C3: a phase that raises *)

(** The first due task of the array with a rejecting phase. *)
Lemma first_rejecting_task (raises : Phase -> BaseTask -> bool) now l t0 p0 :
  In (Some t0) l -> time t0 < now -> raises p0 t0 = true ->
  exists pre t post p,
    l = pre ++ Some t :: post /\
    time t < now /\ raises p t = true /\
    (forall u, In (Some u) pre -> time u < now ->
               forall ph, raises ph u = false).
Proof.
  induction l as [|s l IH]; intros Hin Ht0 Hp0; [contradiction|].
  assert ((exists u p, s = Some u /\ time u < now /\ raises p u = true) \/
          (forall u, s = Some u -> time u < now ->
                     forall ph, raises ph u = false)) as [Hs|Hs].
  { destruct s as [u|]; [|right; discriminate].
    destruct (Z.ltb_spec (time u) now) as [Hu|Hu].
    - destruct (raises BeforeRun u) eqn:E1; [left; eauto|].
      destruct (raises Run u) eqn:E2; [left; eauto|].
      destruct (raises AfterRun u) eqn:E3; [left; eauto|].
      right. intros u' Hu' _ ph. inversion Hu'; subst. destruct ph; assumption.
    - right. intros u' Hu' Hlt. inversion Hu'; subst. lia. }
  - destruct Hs as (u & p & -> & Hu & Hp).
    exists [], u, l, p. repeat split; auto. intros ? [].
  - destruct Hin as [->|Hin].
    + rewrite (Hs t0 eq_refl Ht0 p0) in Hp0. discriminate.
    + destruct (IH Hin Ht0 Hp0) as (pre & t & post & p & -> & Ht & Hp & Hpre).
      exists (s :: pre), t, post, p. repeat split; auto.
      intros u [->|Hu]; [apply Hs; reflexivity | apply Hpre; assumption].
Qed.

(** What [#runTasks] does when the first rejecting due task is [t]. *)
Lemma runTasks_rejects raises now q pre t post p :
  tasksList q = pre ++ Some t :: post ->
  (forall u, In (Some u) pre -> time u < now -> forall ph, raises ph u = false) ->
  time t < now ->
  raises p t = true ->
  exists p' evt,
    raises p' t = true /\
    runTasks raises now q =
      (Thrown (TaskLifecycleError p' t),
       setTasks q (map (vacate now) pre ++ Some t :: post),
       flat_map phaseCalls (dueTasks now pre) ++ evt) /\
    (forall e, In e evt -> exists ph, e = Called ph t) /\
    In (Called p' t) evt /\
    storeWrites (flat_map phaseCalls (dueTasks now pre) ++ evt) = [].
Proof.
  intros Hl Hpre Ht Hp.
  destruct (runPhases_first raises t p Hp) as (evt & p' & E).
  destruct (runPhases_rejects raises t evt p' E) as (Hp' & Hev & Hin & _).
  pose proof (scanDue_quiet raises now pre Hpre) as Hq.
  pose proof (scanDue_rejects raises now pre t post evt p' Hq Ht E) as Hs.
  exists p', evt. repeat split; auto.
  - unfold runTasks. rewrite Hl, Hs. reflexivity.
  - rewrite storeWrites_app, storeWrites_phaseCalls. simpl.
    clear - Hev. induction evt as [|[ph u|ids] evt IH]; simpl; auto.
    + apply IH. intros; apply Hev; now right.
    + destruct (Hev (StoreUpdate ids) (or_introl eq_refl)) as (ph & Hph).
      discriminate.
Qed.

(** C3, as the code has it.  [#runTasks] has no handler around the phase
    calls.  In every wake-up in which a phase of some due task rejects, the
    wake-up ends at the first such task [t] with that failure: the due tasks
    before it have been run and their slots emptied, [t] and every slot
    after it are left as they were, nothing after it is called, no
    completion write is issued, and the timer callback ends without
    rearming, so the fired timer is not replaced. *)
Theorem C3_failure_ends_wakeup raises now q t0 p0 :
  In (Some t0) (tasksList q) -> time t0 < now -> raises p0 t0 = true ->
  exists pre t post p evt,
    tasksList q = pre ++ Some t :: post /\
    time t < now /\ raises p t = true /\
    (forall u, In (Some u) pre -> time u < now ->
               forall ph, raises ph u = false) /\
    runTasks raises now q =
      (Thrown (TaskLifecycleError p t),
       setTasks q (map (vacate now) pre ++ Some t :: post),
       flat_map phaseCalls (dueTasks now pre) ++ evt) /\
    (forall e, In e evt -> exists ph, e = Called ph t) /\
    In (Called p t) evt /\
    storeWrites (flat_map phaseCalls (dueTasks now pre) ++ evt) = [] /\
    (forall h now2 w,
       queue w = q -> In h (map handle (timers w)) ->
       fire raises h now now2 w =
         (Thrown (TaskLifecycleError p t),
          {| queue := setTasks q (map (vacate now) pre ++ Some t :: post);
             timers := filter (fun tm => negb (Nat.eqb (handle tm) h)) (timers w);
             nextHandle := nextHandle w |},
          flat_map phaseCalls (dueTasks now pre) ++ evt)).
Proof.
  intros Hin Ht0 Hp0.
  destruct (first_rejecting_task raises now (tasksList q) t0 p0 Hin Ht0 Hp0)
    as (pre & t & post & p1 & Hl & Ht & Hp1 & Hpre).
  destruct (runTasks_rejects raises now q pre t post p1 Hl Hpre Ht Hp1)
    as (p & evt & Hp & Hrun & Hev & Hcall & Hw).
  exists pre, t, post, p, evt. repeat split; auto.
  intros h now2 w Hq Hh. unfold fire.
  assert (existsb (fun tm => Nat.eqb (handle tm) h) (timers w) = true) as Hex.
  { apply in_map_iff in Hh. destruct Hh as (tm & <- & Hin').
    apply existsb_exists. exists tm. split; [exact Hin'|apply Nat.eqb_refl]. }
  rewrite Hex. simpl queue. rewrite Hq, Hrun. reflexivity.
Qed.

(** A wake-up at clock 3000 over tasks due at 2000, 1000, 5000 and 1500,
    where [run] of the task due at 1000 rejects. *)
Lemma C3_failure_ends_wakeup_witness :
  In (Some taskC) [Some taskA; Some taskC; Some taskB; Some transientTask] /\
  time taskC < 3000 /\ raisesOnC Run taskC = true /\
  exists c q' ev,
    runTasks raisesOnC 3000
      (mkQueue [Some taskA; Some taskC; Some taskB; Some transientTask]
               None None 1) = (Thrown c, q', ev) /\
    storeWrites ev = [].
Proof.
  assert (In (Some taskC) [Some taskA; Some taskC; Some taskB; Some transientTask])
    as Hin by (simpl; auto).
  assert (time taskC < 3000) as Ht by (vm_compute; reflexivity).
  assert (raisesOnC Run taskC = true) as Hp by reflexivity.
  split; [exact Hin|]. split; [exact Ht|]. split; [exact Hp|].
  destruct (C3_failure_ends_wakeup raisesOnC 3000
              (mkQueue [Some taskA; Some taskC; Some taskB; Some transientTask]
                       None None 1) taskC Run Hin Ht Hp)
    as (pre & t & post & p & evt & _ & _ & _ & _ & Hrun & _ & _ & Hw & _).
  eexists _, _, _. split; [exact Hrun|exact Hw].
Defined.

(** Two due tasks, the first of which rejects in [run]: the second is never
    called, the first stays in the working set and nothing is written. *)
Lemma C3_failure_not_isolated : ~ failure_isolation_spec.
Proof.
  intros H.
  specialize (H raisesOnC 3000 (mkQueue [Some taskC; Some taskA] None None 1)
                taskC Run (or_introl eq_refl)).
  assert (time taskC < 3000) as Ht by (vm_compute; reflexivity).
  specialize (H Ht eq_refl).
  change (runTasks raisesOnC 3000 (mkQueue [Some taskC; Some taskA] None None 1))
    with (Thrown (TaskLifecycleError Run taskC),
          mkQueue [Some taskC; Some taskA] None None 1,
          [Called BeforeRun taskC; Called Run taskC]) in H.
  destruct H as (_ & Hstay & _). apply Hstay. simpl. auto.
Qed.

(** ** C4: a row the loader rejects *)

Section Loading.

Variable resolveTask : TaskModel -> Exception + BaseTask.

Lemma loadRecords_all rows ts l :
  map resolveTask rows = map inr ts ->
  loadRecords resolveTask rows l = (Normal, l ++ map Some ts).
Proof.
  revert ts l; induction rows as [|r rows IH]; intros [|t ts] l H;
    simpl in *; try discriminate.
  - now rewrite app_nil_r.
  - inversion H as [[Hr Hrows]]. rewrite Hr, (IH ts _ Hrows).
    now rewrite <- app_assoc.
Qed.

Lemma loadRecords_stops rows1 ts1 bad e rows2 l :
  map resolveTask rows1 = map inr ts1 ->
  resolveTask bad = inl e ->
  loadRecords resolveTask (rows1 ++ bad :: rows2) l = (Thrown e, l ++ map Some ts1).
Proof.
  revert ts1 l; induction rows1 as [|r rows1 IH]; intros [|t ts1] l H Hbad;
    simpl in *; try discriminate.
  - now rewrite Hbad, app_nil_r.
  - inversion H as [[Hr Hrows]]. rewrite Hr, (IH ts1 _ Hrows Hbad).
    now rewrite <- app_assoc.
Qed.

End Loading.

(** C4, as the code has it.  [#loadTasksFromDatabase] has no handler around
    [TaskLoader.resolveTask].  When the loader rejects a row, its failure
    leaves [initialize]: the rows before it are in the working set, the
    rows after it are never loaded, and [#updateTimer] is not reached, so no
    timer is armed by this call.  When the loader accepts every row, all of
    them enter the working set in order and [initialize] goes on to the
    scanning rearm and returns. *)
Theorem C4_unknown_variant_escapes resolveTask now w :
  (forall rows1 ts1 bad e rows2,
     map resolveTask rows1 = map inr ts1 ->
     resolveTask bad = inl e ->
     initialize resolveTask now (rows1 ++ bad :: rows2) w =
       (Thrown e,
        setQueue w (setTasks (subscribeEvents (queue w))
                             (tasksList (queue w) ++ map Some ts1)))) /\
  (forall rows ts,
     map resolveTask rows = map inr ts ->
     initialize resolveTask now rows w =
       (Normal,
        updateTimer now None
          (setQueue w (setTasks (subscribeEvents (queue w))
                                (tasksList (queue w) ++ map Some ts))))).
Proof.
  split.
  - intros rows1 ts1 bad e rows2 H1 Hbad.
    unfold initialize, loadTasksFromDatabase. simpl tasksList.
    now rewrite (loadRecords_stops resolveTask rows1 ts1 bad e rows2 _ H1 Hbad).
  - intros rows ts H.
    unfold initialize, loadTasksFromDatabase. simpl tasksList.
    now rewrite (loadRecords_all resolveTask rows ts _ H).
Qed.

(** A valid row, a row of type [unknown_type], a valid row. *)
Lemma C4_unknown_variant_escapes_witness :
  map loader [rowA] = map inr [taskA] /\
  loader rowBad = inl (UnknownVariantError rowBad) /\
  initialize loader 0 ([rowA] ++ rowBad :: [rowB]) newWorld =
    (Thrown (UnknownVariantError rowBad),
     {| queue := mkQueue [Some taskA] None None 1; timers := [];
        nextHandle := 0 |}).
Proof.
  assert (map loader [rowA] = map inr [taskA]) as H1 by reflexivity.
  assert (loader rowBad = inl (UnknownVariantError rowBad)) as H2 by reflexivity.
  split; [exact H1|]. split; [exact H2|].
  exact (proj1 (C4_unknown_variant_escapes loader 0 newWorld)
               [rowA] [taskA] rowBad _ [rowB] H1 H2).
Defined.

Lemma C4_unknown_variant_not_skipped : ~ unknown_variant_skipped_spec.
Proof.
  intros H.
  specialize (H loader 0 [rowA] rowBad [rowB] [taskA] [taskB]
                (UnknownVariantError rowBad) newWorld eq_refl eq_refl eq_refl).
  change (initialize loader 0 ([rowA] ++ rowBad :: [rowB]) newWorld)
    with (Thrown (UnknownVariantError rowBad),
          {| queue := mkQueue [Some taskA] None None 1; timers := [];
             nextHandle := 0 |}) in H.
  destruct H as (H & _). discriminate H.
Qed.

(** ** C1 and C2: the enqueue path *)

(** With one handler subscribed, an enqueue of a task whose time is not
    negative leaves exactly one timer pending, and that timer is aimed at
    the task just enqueued. *)
Lemma pushTask_arms_for_new_task raises resolveTask now t w :
  reachable raises resolveTask w -> listeners (queue w) = 1%nat ->
  0 <= time t ->
  workingSet (pushTask now (VTask t) w) = workingSet w ++ [t] /\
  timers (pushTask now (VTask t) w) =
    [ {| handle := nextHandle w; armedAt := now;
         delay := timerDelay now (time t) |} ].
Proof.
  intros Hr Hl Ht.
  rewrite (pushTask_always_rearms raises resolveTask now t w Hr Hl).
  set (w1 := setQueue w (setTasks (queue w) (tasksList (queue w) ++ [Some t]))).
  assert (timersOwned w1) as Hown
    by (apply timersOwned_setQueue;
        [apply (reachable_owned raises resolveTask w Hr) | reflexivity]).
  split.
  - unfold workingSet.
    destruct (updateTimer_fields now (Some t) w1) as (-> & _).
    simpl. apply liveTasks_app.
  - rewrite (updateTimer_timers now (Some t) w1 Hown). cbv zeta.
    unfold nextTimerTime.
    destruct (Z.ltb_spec (time t) 0) as [Hneg|_]; [lia|].
    destruct (Z.ltb_spec (time t) 0) as [Hneg|_]; [lia|].
    reflexivity.
Qed.

(** C1, on the code.  After the enqueues of a task due at 2000 and then of
    one due at 5000, both at clock 1000, the one pending timer is set to
    fire at 5000 although the minimum due time of the working set is 2000. *)
Theorem C1_timer_follows_last_enqueue :
  reachable neverRaises loader afterSecondPush /\
  workingSet afterSecondPush = [taskA; taskB] /\
  minDueAt (workingSet afterSecondPush) = Some 2000 /\
  timers afterSecondPush =
    [ {| handle := 1; armedAt := 1000; delay := 4000 |} ] /\
  (forall tm, In tm (timers afterSecondPush) -> fireTime tm = 5000).
Proof.
  split.
  { unfold afterSecondPush, afterFirstPush, readyWorld.
    do 2 apply reach_push. apply reach_initialize. apply reach_new. }
  repeat split.
  intros tm [<-|[]]. reflexivity.
Qed.

Lemma C1_timer_misses_minimum : ~ timer_tracks_minimum_spec.
Proof.
  intros H.
  assert (reachable neverRaises loader afterFirstPush) as Hr.
  { unfold afterFirstPush, readyWorld.
    apply reach_push. apply reach_initialize. apply reach_new. }
  destruct (H neverRaises loader 1000 taskB afterFirstPush 2000 Hr eq_refl)
    as (tm & Htm & Hfire); try (vm_compute; congruence).
  change (timers (pushTask 1000 (VTask taskB) afterFirstPush))
    with [ {| handle := 1; armedAt := 1000; delay := 4000 |} ] in Htm.
  inversion Htm; subst. discriminate Hfire.
Qed.

(** C2, on the code.  The timer pending after the first enqueue is set to
    fire at 2000; the field [#currentTimerTimestamp] is still undefined, so
    the enqueue of the task due at 5000 passes the test of line 50, cancels
    that timer and arms a new one set to fire at 5000. *)
Theorem C2_later_enqueue_rearms :
  timers afterFirstPush = [ {| handle := 0; armedAt := 1000; delay := 1000 |} ] /\
  (forall tm, In tm (timers afterFirstPush) -> fireTime tm < time taskB) /\
  currentTimerTimestamp (queue afterFirstPush) = None /\
  needsRearm taskB (currentTimerTimestamp (queue afterFirstPush)) = true /\
  timers (pushTask 1000 (VTask taskB) afterFirstPush) =
    [ {| handle := 1; armedAt := 1000; delay := 4000 |} ].
Proof.
  repeat split.
  intros tm [<-|[]]. reflexivity.
Qed.

Lemma C2_later_enqueue_replaces_timer : ~ later_enqueue_keeps_timer_spec.
Proof.
  intros H.
  assert (reachable neverRaises loader afterFirstPush) as Hr.
  { unfold afterFirstPush, readyWorld.
    apply reach_push. apply reach_initialize. apply reach_new. }
  specialize (H neverRaises loader 1000 taskB afterFirstPush
                {| handle := 0; armedAt := 1000; delay := 1000 |}
                Hr eq_refl eq_refl eq_refl).
  change (timers (pushTask 1000 (VTask taskB) afterFirstPush))
    with [ {| handle := 1; armedAt := 1000; delay := 4000 |} ] in H.
  discriminate H.
Qed.

(** * Further properties of the queue *)

(** ** The subscription and the enqueue path *)

Lemma pushTask_listeners now v w :
  listeners (queue (pushTask now v w)) = listeners (queue w).
Proof.
  destruct v; simpl; auto.
  apply (iter_handleNewTask_inv
           (fun w' => listeners (queue w') = listeners (queue w))); auto.
  intros w' Hw'. destruct (handleNewTask_fields now t w') as (_ & _ & ->).
  exact Hw'.
Qed.

Lemma initialize_listeners resolveTask now rows w :
  listeners (queue (snd (initialize resolveTask now rows w))) =
  S (listeners (queue w)).
Proof.
  unfold initialize.
  pose proof (loadRecords_fields resolveTask rows (subscribeEvents (queue w)))
    as (_ & _ & E).
  destruct (loadTasksFromDatabase resolveTask rows (subscribeEvents (queue w)))
    as [[|e] q]; simpl in *.
  - destruct (updateTimer_fields now None (setQueue w q)) as (_ & _ & ->).
    simpl. exact E.
  - exact E.
Qed.

Lemma fire_listeners raises h now1 now2 w :
  listeners (queue (snd (fst (fire raises h now1 now2 w)))) =
  listeners (queue w).
Proof.
  unfold fire.
  destruct (existsb (fun tm => Nat.eqb (handle tm) h) (timers w)); [|reflexivity].
  pose proof (runTasks_fields raises now1 (queue w)) as (_ & _ & E).
  simpl queue.
  destruct (runTasks raises now1 (queue w)) as [[[|e] q] ev]; simpl in *.
  - destruct (updateTimer_fields now2 None
      (setQueue {| queue := queue w;
                   timers := filter (fun tm => negb (Nat.eqb (handle tm) h)) (timers w);
                   nextHandle := nextHandle w |} q)) as (_ & _ & ->).
    simpl. exact E.
  - exact E.
Qed.

Lemma unsubscribed_is_new raises resolveTask w :
  reachable raises resolveTask w -> listeners (queue w) = 0%nat -> w = newWorld.
Proof.
  induction 1 as [|now rows w Hr IH|now v w Hr IH|h now1 now2 w Hr IH]; intros Hl.
  - reflexivity.
  - rewrite initialize_listeners in Hl. discriminate.
  - rewrite pushTask_listeners in Hl. rewrite (IH Hl). destruct v; reflexivity.
  - rewrite fire_listeners in Hl. rewrite (IH Hl). reflexivity.
Qed.

(** X1.  As long as [initialize] has not run, no handler is subscribed to
    the [taskAdded] event: the queue is still in its constructed state, and
    [pushTask] leaves it there whatever it is given, a valid task included.
    The task is dropped. *)
Theorem X1_push_before_initialize_dropped raises resolveTask now v w :
  reachable raises resolveTask w ->
  listeners (queue w) = 0%nat ->
  w = newWorld /\ pushTask now v w = w.
Proof.
  intros Hr Hl. split; [exact (unsubscribed_is_new raises resolveTask w Hr Hl)|].
  destruct v; simpl; auto. now rewrite Hl.
Qed.

Lemma X1_push_before_initialize_dropped_witness :
  reachable neverRaises loader (pushTask 5 (VNumber 3) newWorld) /\
  listeners (queue (pushTask 5 (VNumber 3) newWorld)) = 0%nat /\
  pushTask 1000 (VTask taskA) (pushTask 5 (VNumber 3) newWorld)
    = pushTask 5 (VNumber 3) newWorld.
Proof.
  assert (reachable neverRaises loader (pushTask 5 (VNumber 3) newWorld)) as Hr
    by (apply reach_push; apply reach_new).
  assert (listeners (queue (pushTask 5 (VNumber 3) newWorld)) = 0%nat) as Hl
    by reflexivity.
  split; [exact Hr|]. split; [exact Hl|].
  exact (proj2 (X1_push_before_initialize_dropped neverRaises loader 1000
                  (VTask taskA) _ Hr Hl)).
Defined.

Lemma iter_handleNewTask_tasks now t n w :
  tasksList (queue (Nat.iter n (handleNewTask now t) w)) =
  tasksList (queue w) ++ repeat (Some t) n.
Proof.
  induction n as [|n IH]; simpl.
  - now rewrite app_nil_r.
  - destruct (handleNewTask_fields now t (Nat.iter n (handleNewTask now t) w))
      as (-> & _).
    rewrite IH, <- app_assoc. f_equal.
    change (Some t :: repeat (Some t) n) with (repeat (Some t) (S n)).
    clear. induction n as [|n IH]; simpl; auto. now rewrite IH.
Qed.

Lemma liveTasks_repeat t n : liveTasks (repeat (Some t) n) = repeat t n.
Proof.
  induction n as [|n IH]; simpl; auto. now rewrite IH.
Qed.

(** X2.  Every [initialize] subscribes one more handler, whether loading
    succeeds or fails, and no other operation changes their number; an
    enqueue of a task appends it to the working set once per subscribed
    handler, so after [initialize] has run n times each task is queued n
    times. *)
Theorem X2_one_copy_per_handler resolveTask now now0 rows t w :
  listeners (queue (snd (initialize resolveTask now0 rows w))) =
    S (listeners (queue w)) /\
  listeners (queue (pushTask now (VTask t) w)) = listeners (queue w) /\
  workingSet (pushTask now (VTask t) w) =
    workingSet w ++ repeat t (listeners (queue w)).
Proof.
  split; [apply initialize_listeners|].
  split; [apply pushTask_listeners|].
  unfold workingSet. simpl.
  now rewrite iter_handleNewTask_tasks, liveTasks_app, liveTasks_repeat.
Qed.

(** ** The pending timer *)

Lemma updateTimer_bounded now forced w :
  timersOwned w -> delaysBounded (updateTimer now forced w).
Proof.
  intros H. unfold delaysBounded.
  rewrite (updateTimer_timers now forced w H). cbv zeta.
  destruct (nextTimerTime forced (tasksList (queue w)) <? 0); constructor; auto.
  simpl. apply timerDelay_spec.
Qed.

Lemma handleNewTask_bounded now t w :
  timersOwned w /\ delaysBounded w ->
  timersOwned (handleNewTask now t w) /\ delaysBounded (handleNewTask now t w).
Proof.
  intros (Ho & Hb). split; [now apply handleNewTask_owned|].
  unfold handleNewTask.
  destruct (needsRearm t (currentTimerTimestamp (queue w))).
  - apply updateTimer_bounded. exact Ho.
  - exact Hb.
Qed.

Lemma reachable_bounded raises resolveTask w :
  reachable raises resolveTask w -> delaysBounded w.
Proof.
  induction 1 as [|now rows w Hr IH|now v w Hr IH|h now1 now2 w Hr IH].
  - constructor.
  - pose proof (reachable_owned _ _ _ Hr) as Ho.
    unfold initialize.
    pose proof (loadRecords_fields resolveTask rows (subscribeEvents (queue w)))
      as (E & _).
    destruct (loadTasksFromDatabase resolveTask rows (subscribeEvents (queue w)))
      as [[|e] q]; simpl in *.
    + apply updateTimer_bounded. now apply timersOwned_setQueue.
    + exact IH.
  - pose proof (reachable_owned _ _ _ Hr) as Ho.
    destruct v; simpl; auto.
    apply (iter_handleNewTask_inv
             (fun w' => timersOwned w' /\ delaysBounded w')); auto.
    intros w'. apply handleNewTask_bounded.
  - pose proof (reachable_owned _ _ _ Hr) as Ho.
    unfold fire.
    destruct (existsb (fun tm => Nat.eqb (handle tm) h) (timers w)) eqn:Eh;
      [|exact IH].
    simpl queue.
    destruct (runTasks raises now1 (queue w)) as [[[|e] q] ev]; simpl.
    + apply updateTimer_bounded. left. simpl. now apply fired_timer_gone.
    + unfold delaysBounded. simpl. rewrite (fired_timer_gone h w Ho Eh).
      constructor.
Qed.

(** X3.  Whatever sequence of [initialize], [pushTask] and timer fires has
    run, at most one timer is pending; a pending timer is the one whose
    handle the queue holds in [#currentTimer], and its delay lies between
    zero and the horizon of 864000000 ms. *)
Theorem X3_at_most_one_timer raises resolveTask w :
  reachable raises resolveTask w ->
  (List.length (timers w) <= 1)%nat /\
  (forall tm, In tm (timers w) ->
     currentTimer (queue w) = Some (handle tm) /\
     0 <= delay tm <= 864000000).
Proof.
  intros Hr.
  pose proof (reachable_owned _ _ _ Hr) as Ho.
  pose proof (reachable_bounded _ _ _ Hr) as Hb.
  unfold delaysBounded in Hb. rewrite Forall_forall in Hb.
  destruct Ho as [E|(tm0 & E & Hc)].
  - rewrite E. split; [simpl; lia|]. intros tm [].
  - split; [rewrite E; simpl; lia|].
    intros tm Hin. split; [|exact (Hb tm Hin)].
    rewrite E in Hin. destruct Hin as [<-|[]]. exact Hc.
Qed.

Lemma X3_at_most_one_timer_witness :
  reachable neverRaises loader busyWorld /\
  (List.length (timers busyWorld) <= 1)%nat.
Proof.
  assert (reachable neverRaises loader busyWorld) as Hr.
  { unfold busyWorld. apply reach_push. apply reach_initialize. apply reach_new. }
  split; [exact Hr|].
  exact (proj1 (X3_at_most_one_timer neverRaises loader busyWorld Hr)).
Defined.

(** X4.  No operation of the class assigns [#currentTimerTimestamp]: in
    every state the queue can reach the field is undefined, the test of
    line 50 succeeds for every task, and [#handleNewTask] is a push followed
    by a rearm forced on the new task. *)
Theorem X4_timestamp_never_set raises resolveTask now t w :
  reachable raises resolveTask w ->
  currentTimerTimestamp (queue w) = None /\
  needsRearm t (currentTimerTimestamp (queue w)) = true /\
  handleNewTask now t w =
    updateTimer now (Some t)
      (setQueue w (setTasks (queue w) (tasksList (queue w) ++ [Some t]))).
Proof.
  intros Hr. pose proof (reachable_stamp _ _ _ Hr) as E.
  unfold handleNewTask. rewrite E. auto.
Qed.

Lemma X4_timestamp_never_set_witness :
  reachable neverRaises loader busyWorld /\
  currentTimerTimestamp (queue busyWorld) = None.
Proof.
  assert (reachable neverRaises loader busyWorld) as Hr.
  { unfold busyWorld. apply reach_push. apply reach_initialize. apply reach_new. }
  split; [exact Hr|].
  exact (proj1 (X4_timestamp_never_set neverRaises loader 0 taskA busyWorld Hr)).
Defined.

(** X5.  On a queue initialised once, an enqueue of a task whose time is
    not negative appends the task to the working set, cancels the pending
    timer and leaves exactly one timer pending, created by this call and
    aimed at the new task regardless of the tasks already queued: its delay
    is the clamped distance to the task's time, and where the task is due
    between now and the horizon it fires exactly at the task's time. *)
Theorem X5_enqueue_aims_at_new_task raises resolveTask now t w :
  reachable raises resolveTask w ->
  listeners (queue w) = 1%nat ->
  0 <= time t ->
  workingSet (pushTask now (VTask t) w) = workingSet w ++ [t] /\
  timers (pushTask now (VTask t) w) =
    [ {| handle := nextHandle w; armedAt := now;
         delay := timerDelay now (time t) |} ] /\
  currentTimer (queue (pushTask now (VTask t) w)) = Some (nextHandle w) /\
  (now <= time t -> time t - now < MAX_TIMER_TIME ->
   forall tm, In tm (timers (pushTask now (VTask t) w)) -> fireTime tm = time t).
Proof.
  intros Hr Hl Ht.
  destruct (pushTask_arms_for_new_task raises resolveTask now t w Hr Hl Ht)
    as (Hws & Htm).
  split; [exact Hws|]. split; [exact Htm|]. split.
  - rewrite (pushTask_always_rearms raises resolveTask now t w Hr Hl).
    unfold updateTimer, nextTimerTime. simpl.
    destruct (Z.ltb_spec (time t) 0) as [Hneg|_]; [lia|].
    destruct (Z.ltb_spec (time t) 0) as [Hneg|_]; [lia|].
    reflexivity.
  - intros Hge Hlt tm Hin. rewrite Htm in Hin. destruct Hin as [<-|[]].
    unfold fireTime. simpl.
    destruct (timerDelay_spec now (time t)) as (Hd & _).
    rewrite Hd by lia. lia.
Qed.

Lemma X5_enqueue_aims_at_new_task_witness :
  reachable neverRaises loader afterFirstPush /\
  listeners (queue afterFirstPush) = 1%nat /\
  0 <= time taskB /\
  workingSet (pushTask 1000 (VTask taskB) afterFirstPush)
    = workingSet afterFirstPush ++ [taskB].
Proof.
  assert (reachable neverRaises loader afterFirstPush) as Hr.
  { unfold afterFirstPush, readyWorld.
    apply reach_push. apply reach_initialize. apply reach_new. }
  assert (listeners (queue afterFirstPush) = 1%nat) as Hl by reflexivity.
  assert (0 <= time taskB) as Ht by (vm_compute; discriminate).
  split; [exact Hr|]. split; [exact Hl|]. split; [exact Ht|].
  exact (proj1 (X5_enqueue_aims_at_new_task neverRaises loader 1000 taskB
                  afterFirstPush Hr Hl Ht)).
Defined.

Lemma last_snoc (l : list BaseTask) t d : last (l ++ [t]) d = t.
Proof.
  induction l as [|u l IH]; simpl; auto.
  destruct (l ++ [t]) eqn:E; [destruct l; discriminate|exact IH].
Qed.

(** X6.  On a queue initialised once, an enqueue of a task whose time is
    negative appends the task, cancels the pending timer and arms none: the
    forced value is taken for "unset", the scan then ends on the new task,
    which is last in the array, and the scheduler is left idle with tasks
    pending. *)
Theorem X6_negative_enqueue_disarms raises resolveTask now t w :
  reachable raises resolveTask w ->
  listeners (queue w) = 1%nat ->
  time t < 0 ->
  workingSet (pushTask now (VTask t) w) = workingSet w ++ [t] /\
  timers (pushTask now (VTask t) w) = [].
Proof.
  intros Hr Hl Ht.
  rewrite (pushTask_always_rearms raises resolveTask now t w Hr Hl).
  set (w1 := setQueue w (setTasks (queue w) (tasksList (queue w) ++ [Some t]))).
  assert (timersOwned w1) as Hown
    by (apply timersOwned_setQueue;
        [apply (reachable_owned raises resolveTask w Hr) | reflexivity]).
  split.
  - unfold workingSet.
    destruct (updateTimer_fields now (Some t) w1) as (-> & _).
    simpl. apply liveTasks_app.
  - rewrite (updateTimer_timers now (Some t) w1 Hown). cbv zeta.
    assert ((nextTimerTime (Some t) (tasksList (queue w1)) <? 0) = true) as E.
    { unfold nextTimerTime.
      destruct (Z.ltb_spec (time t) 0) as [_|Hge]; [|lia].
      simpl tasksList.
      rewrite (scanTasks_sign (time t) _ t).
      - rewrite liveTasks_app. simpl. rewrite last_snoc. now apply Z.ltb_lt.
      - rewrite liveTasks_app. simpl. destruct (liveTasks (tasksList (queue w)));
          discriminate. }
    now rewrite E.
Qed.

Lemma X6_negative_enqueue_disarms_witness :
  reachable neverRaises loader afterFirstPush /\
  listeners (queue afterFirstPush) = 1%nat /\
  time earlyTask < 0 /\
  timers afterFirstPush <> [] /\
  timers (pushTask 1000 (VTask earlyTask) afterFirstPush) = [].
Proof.
  assert (reachable neverRaises loader afterFirstPush) as Hr.
  { unfold afterFirstPush, readyWorld.
    apply reach_push. apply reach_initialize. apply reach_new. }
  assert (listeners (queue afterFirstPush) = 1%nat) as Hl by reflexivity.
  assert (time earlyTask < 0) as Ht by (vm_compute; reflexivity).
  split; [exact Hr|]. split; [exact Hl|]. split; [exact Ht|].
  split; [vm_compute; discriminate|].
  exact (proj2 (X6_negative_enqueue_disarms neverRaises loader 1000 earlyTask
                  afterFirstPush Hr Hl Ht)).
Defined.

(** ** More on one wake-up *)

Arguments runPhases : simpl never.

Lemma scanDue_nothing_due raises now l :
  (forall t, In (Some t) l -> now <= time t) ->
  scanDue raises now l = mkLoop l [] [] Normal.
Proof.
  induction l as [|[t|] l IH]; intros H; simpl; auto.
  - destruct (Z.ltb_spec (time t) now) as [Hlt|_].
    + specialize (H t (or_introl eq_refl)). lia.
    + rewrite IH by (intros; apply H; now right). reflexivity.
  - rewrite IH by (intros; apply H; now right). reflexivity.
Qed.

Lemma filter_isTask_map_Some ts : filter isTask (map Some ts) = map Some ts.
Proof.
  induction ts as [|t ts IH]; simpl; auto. now rewrite IH.
Qed.

(** X7.  A wake-up in which no task of the working set is strictly before
    [now], the empty working set included, cannot fail whatever the tasks'
    phases would do: it calls nothing, issues no store write, keeps every
    task in its order and only drops the holes of the array. *)
Theorem X7_nothing_due_is_quiet raises now q :
  (forall t, In (Some t) (tasksList q) -> now <= time t) ->
  runTasks raises now q = (Normal, setTasks q (filter isTask (tasksList q)), []) /\
  liveTasks (filter isTask (tasksList q)) = liveTasks (tasksList q).
Proof.
  intros H. split.
  - unfold runTasks. now rewrite (scanDue_nothing_due raises now _ H).
  - clear. induction (tasksList q) as [|[t|] l IH]; simpl; auto.
    now rewrite IH.
Qed.

Lemma X7_nothing_due_is_quiet_witness :
  (forall t, In (Some t) (tasksList holedQueue) -> 500 <= time t) /\
  runTasks raisesOnC 500 holedQueue =
    (Normal,
     mkQueue [Some taskC; Some taskB; Some transientTask] None None 1, []).
Proof.
  assert (forall t, In (Some t) (tasksList holedQueue) -> 500 <= time t) as H.
  { intros t Hin. simpl in Hin.
    destruct Hin as [Hin|[Hin|[Hin|[Hin|[]]]]]; inversion Hin; subst;
      vm_compute; discriminate. }
  split; [exact H|].
  exact (proj1 (X7_nothing_due_is_quiet raisesOnC 500 holedQueue H)).
Defined.

(** X8.  Once a wake-up has returned, a further wake-up with the same or an
    earlier clock reading finds nothing due: it returns, leaves the queue
    exactly as it is, calls no phase and writes nothing.  No task is run
    twice by repeating a wake-up. *)
Theorem X8_repeated_wakeup_is_noop raises now now' q q' ev :
  runTasks raises now q = (Normal, q', ev) ->
  now' <= now ->
  runTasks raises now' q' = (Normal, q', []).
Proof.
  intros E Hle.
  destruct (runTasks_returns raises now q q' ev E) as (-> & _ & _).
  unfold runTasks. simpl tasksList.
  rewrite scanDue_nothing_due.
  - simpl. rewrite filter_isTask_map_Some. reflexivity.
  - intros t Hin. apply in_map_iff in Hin. destruct Hin as (u & Eu & Hu).
    inversion Eu; subst. apply filter_In in Hu. destruct Hu as (_ & Hu).
    unfold due in Hu. apply negb_true_iff, Z.ltb_ge in Hu. lia.
Qed.

Lemma X8_repeated_wakeup_is_noop_witness :
  runTasks neverRaises 2000
    (mkQueue [Some taskA; Some taskC; Some zeroIdTask; Some transientTask]
             None None 1)
  = (Normal, mkQueue [Some taskA] None None 1,
     phaseCalls taskC ++ phaseCalls zeroIdTask ++ phaseCalls transientTask
       ++ [StoreUpdate [IdNum 3]]) /\
  2000 <= 2000 /\
  runTasks neverRaises 2000 (mkQueue [Some taskA] None None 1)
  = (Normal, mkQueue [Some taskA] None None 1, []).
Proof.
  assert (runTasks neverRaises 2000
            (mkQueue [Some taskA; Some taskC; Some zeroIdTask; Some transientTask]
                     None None 1)
          = (Normal, mkQueue [Some taskA] None None 1,
             phaseCalls taskC ++ phaseCalls zeroIdTask ++ phaseCalls transientTask
               ++ [StoreUpdate [IdNum 3]])) as E by reflexivity.
  assert (2000 <= 2000) as Hle by lia.
  split; [exact E|]. split; [exact Hle|].
  exact (X8_repeated_wakeup_is_noop neverRaises 2000 2000 _ _ _ E Hle).
Defined.

(** X9.  The trace of a wake-up that returns is fixed by the array: for
    each due task, in array order, [beforeRun], [run], [afterRun] in that
    order, and after the calls of the last task the one store write, if
    there is any id to write.  The array afterwards holds the remaining
    tasks in their former order and has no hole, even if it had some. *)
Theorem X9_wakeup_order raises now q q' ev :
  runTasks raises now q = (Normal, q', ev) ->
  ev = flat_map (fun t => [Called BeforeRun t; Called Run t; Called AfterRun t])
                (dueTasks now (tasksList q))
       ++ match persistedIds (dueTasks now (tasksList q)) with
          | [] => []
          | ids => [StoreUpdate ids]
          end /\
  tasksList q' =
    map Some (filter (fun t => negb (time t <? now)) (liveTasks (tasksList q))) /\
  ~ In None (tasksList q').
Proof.
  intros E.
  destruct (runTasks_returns raises now q q' ev E) as (-> & -> & _).
  split; [reflexivity|]. split; [reflexivity|].
  simpl. intros H. apply in_map_iff in H. destruct H as (u & Eu & _).
  discriminate.
Qed.

Lemma X9_wakeup_order_witness :
  runTasks neverRaises 6000 holedQueue =
    (Normal, mkQueue [] None None 1,
     phaseCalls taskC ++ phaseCalls taskB ++ phaseCalls transientTask
       ++ [StoreUpdate [IdNum 3; IdNum 2]]) /\
  ~ In None (tasksList (mkQueue [] None None 1)).
Proof.
  assert (runTasks neverRaises 6000 holedQueue =
            (Normal, mkQueue [] None None 1,
             phaseCalls taskC ++ phaseCalls taskB ++ phaseCalls transientTask
               ++ [StoreUpdate [IdNum 3; IdNum 2]])) as E by reflexivity.
  split; [exact E|].
  exact (proj2 (proj2 (X9_wakeup_order neverRaises 6000 holedQueue _ _ E))).
Defined.

Lemma runPhases_prefix raises t ev p :
  runPhases raises t lifecycle = (ev, Some p) ->
  ev = map (fun ph => Called ph t) (phasesUpTo p) /\
  raises p t = true /\
  (forall ph, In ph (phasesUpTo p) -> ph <> p -> raises ph t = false).
Proof.
  unfold lifecycle, runPhases.
  destruct (raises BeforeRun t) eqn:E1;
    [|destruct (raises Run t) eqn:E2; [|destruct (raises AfterRun t) eqn:E3]];
    intros H; inversion H; subst; clear H;
    (split; [reflexivity|]); (split; [assumption|]);
    intros ph Hin Hne; simpl in Hin;
    repeat (destruct Hin as [<-|Hin]; [congruence|]); contradiction.
Qed.

(** Any failure of the loop is the rejection of the first due task with a
    rejecting phase. *)
Lemma scanDue_thrown raises now l e :
  outcome (scanDue raises now l) = Thrown e ->
  exists pre t post p evt,
    l = pre ++ Some t :: post /\
    outcome (scanDue raises now pre) = Normal /\
    time t < now /\
    runPhases raises t lifecycle = (evt, Some p) /\
    e = TaskLifecycleError p t.
Proof.
  induction l as [|[u|] l IH]; simpl.
  - discriminate.
  - destruct (time u <? now) eqn:Hu.
    + destruct (runPhases raises u lifecycle) as [evu [pu|]] eqn:Eu; simpl.
      * intros H. inversion H; subst.
        exists [], u, l, pu, evu. apply Z.ltb_lt in Hu. auto.
      * intros H. destruct (IH H) as (pre & t & post & p & evt & -> & Hn & Hr).
        exists (Some u :: pre), t, post, p, evt. split; [reflexivity|].
        split; [|exact Hr]. simpl. now rewrite Hu, Eu.
    + simpl. intros H.
      destruct (IH H) as (pre & t & post & p & evt & -> & Hn & Hr).
      exists (Some u :: pre), t, post, p, evt. split; [reflexivity|].
      split; [|exact Hr]. simpl. now rewrite Hu.
  - intros H. destruct (IH H) as (pre & t & post & p & evt & -> & Hn & Hr).
    exists (None :: pre), t, post, p, evt. auto.
Qed.

Lemma runTasks_thrown raises now q e q' ev :
  runTasks raises now q = (Thrown e, q', ev) ->
  exists pre t post p,
    e = TaskLifecycleError p t /\
    tasksList q = pre ++ Some t :: post /\
    time t < now /\
    raises p t = true /\
    (forall ph, In ph (phasesUpTo p) -> ph <> p -> raises ph t = false) /\
    Forall (fun u => forall ph, raises ph u = false) (dueTasks now pre) /\
    ev = flat_map phaseCalls (dueTasks now pre)
         ++ map (fun ph => Called ph t) (phasesUpTo p) /\
    q' = setTasks q (map (vacate now) pre ++ Some t :: post).
Proof.
  unfold runTasks.
  destruct (outcome (scanDue raises now (tasksList q))) as [|e0] eqn:Ho.
  - destruct (completedTasks (scanDue raises now (tasksList q))); discriminate.
  - intros H. inversion H; subst; clear H.
    destruct (scanDue_thrown raises now _ _ Ho)
      as (pre & t & post & p & evt & Hl & Hn & Ht & Hr & ->).
    destruct (runPhases_prefix raises t evt p Hr) as (-> & Hp & Hbefore).
    destruct (scanDue_returns raises now pre Hn) as (_ & _ & _ & Hq).
    rewrite Hl, (scanDue_rejects raises now pre t post _ p Hn Ht Hr).
    exists pre, t, post, p. simpl. auto 10.
Qed.



(** X11.  Whatever the outcome of a wake-up, a task leaves the array only
    after [beforeRun], [run] and [afterRun] have all been called on it and
    have returned; and the array afterwards holds no task that was not in
    it before. *)
Theorem X11_no_task_dropped_unrun raises now q c q' ev :
  runTasks raises now q = (c, q', ev) ->
  (forall t, In (Some t) (tasksList q) ->
     In (Some t) (tasksList q') \/
     (time t < now /\ forall p, In (Called p t) ev /\ raises p t = false)) /\
  (forall t, In (Some t) (tasksList q') -> In (Some t) (tasksList q)).
Proof.
  intros E.
  assert (forall l t, In (Some t) l ->
            In (Some t) (map (vacate now) l) \/ In t (dueTasks now l)) as Hsplit.
  { intros l t Hin. destruct (due now t) eqn:Hd.
    - right. apply filter_In. split; [now apply liveTasks_In|exact Hd].
    - left. apply in_map_iff. exists (Some t). simpl. now rewrite Hd. }
  assert (forall l t, In (Some t) (map (vacate now) l) -> In (Some t) l) as Hback.
  { intros l t Hin. apply in_map_iff in Hin. destruct Hin as ([u|] & Hv & Hu);
      simpl in Hv; [|discriminate].
    destruct (due now u); [discriminate|]. now rewrite <- Hv. }
  assert (forall l t, In t (dueTasks now l) ->
            time t < now /\ forall p, In (Called p t) (flat_map phaseCalls (dueTasks now l)))
    as Hcalled.
  { intros l t Hin. split.
    - apply filter_In in Hin. destruct Hin as (_ & Hd). now apply Z.ltb_lt.
    - intros p. apply in_flat_map. exists t. split; [exact Hin|].
      unfold phaseCalls, lifecycle. destruct p; simpl; auto. }
  destruct c as [|e].
  - destruct (runTasks_returns raises now q q' ev E) as (-> & -> & Hq).
    rewrite Forall_forall in Hq. simpl tasksList.
    rewrite <- vacate_filter. split.
    + intros t Hin. destruct (Hsplit _ t Hin) as [Hk|Hd].
      * left. apply filter_In. auto.
      * right. destruct (Hcalled _ t Hd) as (Hlt & Hc). split; [exact Hlt|].
        intros p. split; [apply in_or_app; left; apply Hc|now apply Hq].
    + intros t Hin. apply filter_In in Hin. destruct Hin as (Hin & _).
      now apply Hback.
  - destruct (runTasks_thrown raises now q e q' ev E)
      as (pre & t0 & post & p0 & _ & Hl & _ & _ & _ & Hq & -> & ->).
    rewrite Forall_forall in Hq. rewrite Hl. simpl tasksList. split.
    + intros t Hin. apply in_app_or in Hin. destruct Hin as [Hin|Hin].
      * destruct (Hsplit _ t Hin) as [Hk|Hd].
        -- left. apply in_or_app. now left.
        -- right. destruct (Hcalled _ t Hd) as (Hlt & Hc). split; [exact Hlt|].
           intros p. split; [apply in_or_app; left; apply Hc|now apply Hq].
      * left. apply in_or_app. now right.
    + intros t Hin. apply in_app_or in Hin. apply in_or_app.
      destruct Hin as [Hin|Hin]; [left; now apply Hback|now right].
Qed.

Lemma X11_no_task_dropped_unrun_witness :
  runTasks raisesOnC 3000
    (mkQueue [Some taskA; Some taskC; Some taskB; Some transientTask] None None 1)
  = (Thrown (TaskLifecycleError Run taskC),
     mkQueue [None; Some taskC; Some taskB; Some transientTask] None None 1,
     phaseCalls taskA ++ [Called BeforeRun taskC; Called Run taskC]) /\
  forall t, In (Some t) [None; Some taskC; Some taskB; Some transientTask] ->
            In (Some t) [Some taskA; Some taskC; Some taskB; Some transientTask].
Proof.
  assert (runTasks raisesOnC 3000
    (mkQueue [Some taskA; Some taskC; Some taskB; Some transientTask] None None 1)
  = (Thrown (TaskLifecycleError Run taskC),
     mkQueue [None; Some taskC; Some taskB; Some transientTask] None None 1,
     phaseCalls taskA ++ [Called BeforeRun taskC; Called Run taskC])) as E
    by reflexivity.
  split; [exact E|].
  exact (proj2 (X11_no_task_dropped_unrun _ _ _ _ _ _ E)).
Defined.

(** ** Startup *)

Lemma initialize_loaded resolveTask now rows ts w :
  map resolveTask rows = map inr ts ->
  initialize resolveTask now rows w =
    (Normal,
     updateTimer now None
       (setQueue w (setTasks (subscribeEvents (queue w))
                             (tasksList (queue w) ++ map Some ts)))).
Proof.
  intros H. unfold initialize, loadTasksFromDatabase. simpl tasksList.
  now rewrite (loadRecords_all resolveTask rows ts _ H).
Qed.

(** X12.  When the loader accepts every row and no task time is negative,
    [initialize] returns with the loaded tasks appended to the working set
    in row order and, if the working set is not empty, with exactly one
    timer pending, aimed at the minimum time over the whole working set
    with the delay clamped to the horizon; over an empty working set it
    arms nothing. *)
Theorem X12_startup_arms_for_minimum raises resolveTask now rows ts w :
  reachable raises resolveTask w ->
  map resolveTask rows = map inr ts ->
  Forall (fun t => 0 <= time t) (workingSet w ++ ts) ->
  exists w',
    initialize resolveTask now rows w = (Normal, w') /\
    workingSet w' = workingSet w ++ ts /\
    (workingSet w' = [] -> timers w' = []) /\
    (workingSet w' <> [] ->
     exists m, minDueAt (workingSet w') = Some m /\
       (forall t, In t (workingSet w') -> m <= time t) /\
       timers w' =
         [ {| handle := nextHandle w; armedAt := now;
              delay := timerDelay now m |} ]).
Proof.
  intros Hr Hrows Hall.
  set (w0 := setQueue w (setTasks (subscribeEvents (queue w))
                                  (tasksList (queue w) ++ map Some ts))).
  exists (updateTimer now None w0).
  split; [exact (initialize_loaded resolveTask now rows ts w Hrows)|].
  assert (workingSet w0 = workingSet w ++ ts) as Hws.
  { unfold workingSet, w0. simpl.
    now rewrite liveTasks_app, liveTasks_map_Some. }
  assert (workingSet (updateTimer now None w0) = workingSet w0) as Hsame.
  { unfold workingSet.
    now destruct (updateTimer_fields now None w0) as (-> & _). }
  assert (timersOwned w0) as Hown
    by (apply timersOwned_setQueue;
        [apply (reachable_owned raises resolveTask w Hr) | reflexivity]).
  rewrite <- Hws in Hall.
  destruct (rearm_of_nonneg now w0 Hown Hall) as (Hidle & Harm).
  rewrite Hsame. split; [exact Hws|]. split; [exact Hidle|].
  intros Hne. destruct (Harm Hne) as (m & Em & _ & Ht & _).
  exists m. split; [exact Em|]. split; [|exact Ht].
  intros t Hin. exact (minDueAt_lower _ m t Em Hin).
Qed.

Lemma X12_startup_arms_for_minimum_witness :
  reachable neverRaises loader newWorld /\
  map loader [rowB; rowA] = map inr [taskB; taskA] /\
  Forall (fun t => 0 <= time t) (workingSet newWorld ++ [taskB; taskA]) /\
  exists w', initialize loader 100 [rowB; rowA] newWorld = (Normal, w') /\
             workingSet w' = workingSet newWorld ++ [taskB; taskA].
Proof.
  assert (reachable neverRaises loader newWorld) as Hr by apply reach_new.
  assert (map loader [rowB; rowA] = map inr [taskB; taskA]) as Hrows
    by reflexivity.
  assert (Forall (fun t => 0 <= time t) (workingSet newWorld ++ [taskB; taskA]))
    as Hall by (repeat constructor; vm_compute; discriminate).
  split; [exact Hr|]. split; [exact Hrows|]. split; [exact Hall|].
  destruct (X12_startup_arms_for_minimum neverRaises loader 100 [rowB; rowA]
              [taskB; taskA] newWorld Hr Hrows Hall) as (w' & E & Hws & _).
  exists w'. split; [exact E|exact Hws].
Defined.

Lemma filter_all {A} (f : A -> bool) l :
  (forall x, In x l -> f x = true) -> filter f l = l.
Proof.
  induction l as [|x l IH]; intros H; simpl; auto.
  rewrite (H x (or_introl eq_refl)), IH; auto. intros; apply H; now right.
Qed.

Lemma filter_none {A} (f : A -> bool) l :
  (forall x, In x l -> f x = false) -> filter f l = [].
Proof.
  induction l as [|x l IH]; intros H; simpl; auto.
  rewrite (H x (or_introl eq_refl)), IH; auto. intros; apply H; now right.
Qed.

(** X13.  A freshly constructed queue is started over rows the loader
    accepts, with task times that are not negative; its timer then fires at
    a clock reading past all of them, and no phase rejects.  That one
    wake-up runs every loaded task, in row order, through its three phases,
    writes the truthy ids in one batch, and leaves the working set empty
    and no timer pending. *)
Theorem X13_load_then_fire_drains raises resolveTask now0 now1 now2 rows ts :
  map resolveTask rows = map inr ts ->
  ts <> [] ->
  Forall (fun t => 0 <= time t < now1) ts ->
  (forall t p, In t ts -> raises p t = false) ->
  exists h w',
    In h (map handle (timers (snd (initialize resolveTask now0 rows newWorld)))) /\
    fire raises h now1 now2 (snd (initialize resolveTask now0 rows newWorld)) =
      (Normal, w',
       flat_map phaseCalls ts ++
       match persistedIds ts with [] => [] | ids => [StoreUpdate ids] end) /\
    workingSet w' = [] /\
    timers w' = [].
Proof.
  intros Hrows Hne Hall Hquiet.
  rewrite Forall_forall in Hall.
  set (w0 := setQueue newWorld (setTasks (subscribeEvents (queue newWorld))
                                          (tasksList (queue newWorld) ++ map Some ts))).
  assert (snd (initialize resolveTask now0 rows newWorld) =
          updateTimer now0 None w0) as Hinit
    by now rewrite (initialize_loaded resolveTask now0 rows ts newWorld Hrows).
  rewrite Hinit. clear Hinit.
  assert (workingSet w0 = ts) as Hws
    by (unfold workingSet, w0; simpl; apply liveTasks_map_Some).
  assert (timersOwned w0) as Hown by now left.
  assert (Forall (fun t => 0 <= time t) (workingSet w0)) as Hpos.
  { rewrite Hws. apply Forall_forall. intros t Ht. apply (Hall t Ht). }
  destruct (rearm_of_nonneg now0 w0 Hown Hpos) as (_ & Harm).
  rewrite Hws in Harm. destruct (Harm Hne) as (m & _ & _ & Htm & _).
  destruct (updateTimer_fields now0 None w0) as (Htasks & _).
  set (wi := updateTimer now0 None w0) in *.
  exists 0%nat. unfold fire. rewrite Htm. simpl existsb. simpl filter.
  simpl queue.
  assert (tasksList (queue wi) = map Some ts) as Hl by (rewrite Htasks; reflexivity).
  assert (fst (fst (runTasks raises now1 (queue wi))) = Normal) as Hn.
  { apply runTasks_quiet. rewrite Hl. intros t Hin _ p.
    apply Hquiet. apply in_map_iff in Hin. destruct Hin as (u & Eu & Hu).
    injection Eu as <-. exact Hu. }
  destruct (runTasks raises now1 (queue wi)) as [[c q] ev] eqn:Er.
  simpl in Hn. destruct c as [|e]; [clear Hn|discriminate Hn].
  destruct (runTasks_returns raises now1 (queue wi) q ev Er) as (Hq & Hev & _).
  unfold dueTasks in Hev. rewrite Hl, liveTasks_map_Some in Hq, Hev.
  rewrite (filter_none (fun t => negb (due now1 t)) ts) in Hq.
  2:{ intros t Ht. apply negb_false_iff, Z.ltb_lt. apply (Hall t Ht). }
  rewrite (filter_all (due now1) ts) in Hev.
  2:{ intros t Ht. apply Z.ltb_lt. apply (Hall t Ht). }
  eexists. split; [simpl; auto|]. split; [rewrite Hev; reflexivity|].
  rewrite Hq. unfold updateTimer, workingSet. simpl.
  destruct (currentTimer (queue wi)); auto.
Qed.

Lemma X13_load_then_fire_drains_witness :
  map loader [rowB; rowA] = map inr [taskB; taskA] /\
  [taskB; taskA] <> [] /\
  Forall (fun t => 0 <= time t < 6000) [taskB; taskA] /\
  (forall t p, In t [taskB; taskA] -> neverRaises p t = false) /\
  exists h w',
    fire neverRaises h 6000 6001 (snd (initialize loader 100 [rowB; rowA] newWorld)) =
      (Normal, w',
       flat_map phaseCalls [taskB; taskA] ++
       match persistedIds [taskB; taskA] with
       | [] => []
       | ids => [StoreUpdate ids]
       end) /\
    workingSet w' = [] /\ timers w' = [].
Proof.
  assert (map loader [rowB; rowA] = map inr [taskB; taskA]) as Hrows
    by reflexivity.
  assert ([taskB; taskA] <> []) as Hne by discriminate.
  assert (Forall (fun t => 0 <= time t < 6000) [taskB; taskA]) as Hall
    by (repeat constructor; vm_compute; try discriminate; reflexivity).
  assert (forall t p, In t [taskB; taskA] -> neverRaises p t = false) as Hq
    by reflexivity.
  split; [exact Hrows|]. split; [exact Hne|]. split; [exact Hall|].
  split; [exact Hq|].
  destruct (X13_load_then_fire_drains neverRaises loader 100 6000 6001
              [rowB; rowA] [taskB; taskA] Hrows Hne Hall Hq)
    as (h & w' & _ & E & Hws & Htm).
  exists h, w'. auto.
Defined.
